(** * aircraft-alert: the alert-matching handlers and the broadcast hub

    A shallow embedding of [main.go] and [models.go].  The HTTP handlers
    are functions in a small state-and-output monad over the package
    level variables; [Hub.run] is a step function over the client map
    and the heap of [Client] objects.  What the program takes from
    outside (encoding/json, time.Now, the slice growth policy of the Go
    runtime) is gathered in the record [Runtime]. *)

From Stdlib Require Import ZArith.
From stdpp Require Import base option list strings gmap fin_maps.

Open Scope string_scope.
Open Scope list_scope.

(** ** The parts of the Go runtime the program relies on *)

Module Go.

(** Run-time panics that the modelled statements can raise. *)
Inductive panic :=
  | NilDereference
  | SendOnClosedChannel
  | CloseOfClosedChannel
  | IndexOutOfRange.

Inductive result (A : Type) :=
  | Ok (a : A)
  | Panic (p : panic).
Arguments Ok {A} a.
Arguments Panic {A} p.

Definition rbind {A B} (r : result A) (k : A -> result B) : result B :=
  match r with
  | Ok a => k a
  | Panic p => Panic p
  end.

(** [time.Time], kept as the instant it denotes. *)
Inductive Time := UnixNano (ns : Z).

(** The zero [time.Time]: January 1 of year 1, 00:00 UTC. *)
Definition zero_Time : Time := UnixNano (-62135596800000000000).

(** [float64] fields are only carried around by this program; they are
    kept as their IEEE-754 bit pattern. *)
Definition float64 := Z.

(** The newline byte of Go's "\n". *)
Definition nl : string := String (Ascii.ascii_of_nat 10) "".

(** *** Buffered channels of byte strings

    [make(chan []byte, n)] followed by sends, receives and [close]. *)
Record Chan := MkChan {
  buf : list string;
  capacity : nat;
  closed : bool
}.

Definition make_chan (n : nat) : Chan :=
  {| buf := []; capacity := n; closed := false |}.

(** [select { case ch <- m: ...; default: ... }]: [Ok (Some ch')] when
    the send went through, [Ok None] when the default branch is taken.
    A send on a closed channel panics, inside a select as well. *)
Definition try_send (ch : Chan) (m : string) : result (option Chan) :=
  if closed ch then Panic SendOnClosedChannel
  else if decide (length (buf ch) < capacity ch)
       then Ok (Some {| buf := buf ch ++ [m]; capacity := capacity ch; closed := false |})
       else Ok None.

(** [close(ch)]. *)
Definition close (ch : Chan) : result Chan :=
  if closed ch then Panic CloseOfClosedChannel
  else Ok {| buf := buf ch; capacity := capacity ch; closed := true |}.

(** [m, open := <-ch] when it does not block: the oldest buffered
    message, or the closed signal once the buffer is drained. *)
Definition try_recv (ch : Chan) : option (option string * Chan) :=
  match buf ch with
  | m :: rest => Some (Some m, {| buf := rest; capacity := capacity ch; closed := closed ch |})
  | [] => if closed ch then Some (None, ch) else None
  end.

(** *** Slices over a memory of backing arrays

    A slice header points into a block of cells.  Blocks are handed out
    in increasing order; block 0 is never allocated and is the pointer
    of the nil slice. *)
Record Slice := MkSlice {
  ptr : nat;
  len : nat;
  cap : nat
}.

Definition nil_slice : Slice := {| ptr := 0; len := 0; cap := 0 |}.

Section Memory.
Context {A : Type} (zero : A).

Record Mem := MkMem {
  cells : gmap (nat * nat) A;
  next : nat
}.

Definition empty_mem : Mem := {| cells := ∅; next := 1 |}.

Definition load (m : Mem) (p i : nat) : A :=
  default zero (cells m !! (p, i)).

Definition store (m : Mem) (p i : nat) (x : A) : Mem :=
  {| cells := <[(p, i) := x]> (cells m); next := next m |}.

(** Writes [xs] to the cells [i, i+1, ...] of block [p]. *)
Fixpoint store_from (m : Mem) (p i : nat) (xs : list A) : Mem :=
  match xs with
  | [] => m
  | x :: xs => store_from (store m p i x) p (S i) xs
  end.

(** The elements a slice denotes: [s[0], ..., s[len-1]]. *)
Definition view (m : Mem) (s : Slice) : list A :=
  (fun i => load m (ptr s) i) <$> seq 0 (len s).

(** [make([]T, n)]: a fresh zeroed block. *)
Definition make (n : nat) (m : Mem) : Slice * Mem :=
  let p := next m in
  let m' := store_from {| cells := cells m; next := S p |} p 0 (replicate n zero) in
  ({| ptr := p; len := n; cap := n |}, m').

(** [copy(dst, src)]: the first [min(len dst, len src)] elements, read
    before any is written. *)
Definition copy (dst src : Slice) (m : Mem) : Mem :=
  store_from m (ptr dst) 0 (take (len dst) (view m src)).

(** [append(s, x)]: in place while the capacity lasts, else into a
    fresh block whose capacity the runtime chooses ([grow]). *)
Definition append (grow : nat -> nat) (s : Slice) (x : A) (m : Mem) : Slice * Mem :=
  if decide (len s < cap s)
  then ({| ptr := ptr s; len := S (len s); cap := cap s |}, store m (ptr s) (len s) x)
  else
    let p := next m in
    let m' := store_from {| cells := cells m; next := S p |} p 0 (view m s ++ [x]) in
    ({| ptr := p; len := S (len s); cap := Nat.max (S (len s)) (grow (cap s)) |}, m').

(** [s[i] = x]. *)
Definition set_index (s : Slice) (i : nat) (x : A) (m : Mem) : result Mem :=
  if decide (i < len s) then Ok (store m (ptr s) i x) else Panic IndexOutOfRange.

End Memory.

Arguments Mem A : clear implicits.

End Go.

Import Go.

(** ** models.go *)

Module Aircraft.
(** Basic ADS-B data for an aircraft. *)
Record t := Make {
  ICAO : string;
  Callsign : string;
  Latitude : float64;
  Longitude : float64;
  Altitude : Z;
  Speed : float64;
  Track : float64;
  Timestamp : Time
}.

(** [aircraft.Timestamp = ts]. *)
Definition with_Timestamp (ts : Time) (a : t) : t :=
  {| ICAO := ICAO a; Callsign := Callsign a;
     Latitude := Latitude a; Longitude := Longitude a;
     Altitude := Altitude a; Speed := Speed a; Track := Track a;
     Timestamp := ts |}.

Definition zero : t :=
  {| ICAO := ""; Callsign := ""; Latitude := 0%Z; Longitude := 0%Z;
     Altitude := 0%Z; Speed := 0%Z; Track := 0%Z; Timestamp := zero_Time |}.
End Aircraft.

Module AlertCriteria.
(** The conditions for an alert. *)
Record t := Make {
  ICAO : string;
  Callsign : string
}.

Definition zero : t := {| ICAO := ""; Callsign := "" |}.
End AlertCriteria.

Module Alert.
(** An alert triggered for a specific aircraft. *)
Record t := Make {
  Aircraft : Aircraft.t;
  Message : string;
  Criteria : AlertCriteria.t;
  Timestamp : Time
}.

Definition zero : t :=
  {| Aircraft := Aircraft.zero; Message := "";
     Criteria := AlertCriteria.zero; Timestamp := zero_Time |}.
End Alert.

(** ** What the program takes from outside

    [now n] is what the [n]-th call of [time.Now()] returns.  The two
    decoders stand for [json.NewDecoder(body).Decode(&v)] at the two
    struct types ([None] is a decode error), the two marshallers for
    [json.Marshal] ([None] is a marshal error), and [growslice] for the
    capacity the runtime picks when [append] has to reallocate. *)
Record Runtime := {
  now : nat -> Time;
  decodeAircraft : string -> option Aircraft.t;
  decodeCriteria : string -> option AlertCriteria.t;
  marshalAircraft : Aircraft.t -> option string;
  marshalAlert : Alert.t -> option string;
  growslice : nat -> nat
}.

(** ** main.go: package state and HTTP handlers *)

(** The package level variables [alertCriteria] and [triggeredAlerts],
    the memory the alert log lives in, and the number of clock readings
    taken so far.  [mu] is not represented: every handler below runs
    its critical section as one step. *)
Record Server := MkServer {
  alertCriteria : list AlertCriteria.t;
  triggeredAlerts : Slice;
  mem : Mem Alert.t;
  clock : nat
}.

(** The value handed to [c.JSON(status, value)]. *)
Inductive Payload :=
  | JMap (kv : gmap string string)
  | JCriterion (c : AlertCriteria.t)
  | JAlerts (s : Slice).

Record Response := JSON {
  status : nat;
  payload : Payload
}.

Definition StatusOK : nat := 200.
Definition StatusCreated : nat := 201.
Definition StatusBadRequest : nat := 400.

(** A handler reads and updates the package state and sends messages on
    [hub.broadcast]; the third component lists those sends, oldest
    first. *)
Definition Handler (A : Type) : Type := Server -> A * Server * list string.

Definition ret {A} (a : A) : Handler A := fun s => (a, s, []).

Definition bind {A B} (h : Handler A) (k : A -> Handler B) : Handler B :=
  fun s =>
    let '(a, s1, out1) := h s in
    let '(b, s2, out2) := k a s1 in
    (b, s2, out1 ++ out2).

Notation "'let*' x := h 'in' k" := (bind h (fun x => k))
  (at level 10, x name, h at level 100, k at level 200).
Notation "h >> k" := (bind h (fun _ => k))
  (at level 62, right associativity).

(** [for _, x := range xs { body }]. *)
Fixpoint range {A} (xs : list A) (body : A -> Handler unit) : Handler unit :=
  match xs with
  | [] => ret tt
  | x :: xs => body x >> range xs body
  end.

(** The log as a list, oldest alert first. *)
Definition alerts_of (s : Server) : list Alert.t :=
  view Alert.zero (mem s) (triggeredAlerts s).

Section Handlers.
Context (rt : Runtime).

(** [time.Now()]. *)
Definition time_Now : Handler Time := fun s =>
  (now rt (clock s),
   {| alertCriteria := alertCriteria s; triggeredAlerts := triggeredAlerts s;
      mem := mem s; clock := S (clock s) |},
   []).

(** [hub.broadcast <- message]. *)
Definition hub_broadcast (message : string) : Handler unit := fun s =>
  (tt, s, [message]).

Definition read_alertCriteria : Handler (list AlertCriteria.t) := fun s =>
  (alertCriteria s, s, []).

(** [alertCriteria = append(alertCriteria, criterion)]. *)
Definition append_alertCriteria (criterion : AlertCriteria.t) : Handler unit := fun s =>
  (tt,
   {| alertCriteria := alertCriteria s ++ [criterion];
      triggeredAlerts := triggeredAlerts s; mem := mem s; clock := clock s |},
   []).

(** [triggeredAlerts = append(triggeredAlerts, alert)]. *)
Definition append_triggeredAlerts (alert : Alert.t) : Handler unit := fun s =>
  let r := append Alert.zero (growslice rt) (triggeredAlerts s) alert (mem s) in
  (tt,
   {| alertCriteria := alertCriteria s; triggeredAlerts := r.1;
      mem := r.2; clock := clock s |},
   []).

(** [alertsToReturn := make([]Alert, len(triggeredAlerts));
    copy(alertsToReturn, triggeredAlerts)]. *)
Definition copy_triggeredAlerts : Handler Slice := fun s =>
  let r := make Alert.zero (len (triggeredAlerts s)) (mem s) in
  (r.1,
   {| alertCriteria := alertCriteria s; triggeredAlerts := triggeredAlerts s;
      mem := copy Alert.zero r.1 (triggeredAlerts s) r.2; clock := clock s |},
   []).

Definition aircraftUpdate_frame (json : string) : string :=
  "event: aircraftUpdate" +:+ nl +:+ "data: " +:+ json +:+ nl +:+ nl.

Definition alert_frame (json : string) : string :=
  "event: alert" +:+ nl +:+ "data: " +:+ json +:+ nl +:+ nl.

(** The test of main.go:150-156. *)
Definition criterion_matches (criterion : AlertCriteria.t) (aircraft : Aircraft.t) : bool :=
  let match_ := false in
  let match_ :=
    if bool_decide (AlertCriteria.ICAO criterion ≠ "")
       && bool_decide (AlertCriteria.ICAO criterion = Aircraft.ICAO aircraft)
    then true else match_ in
  let match_ :=
    if bool_decide (AlertCriteria.Callsign criterion ≠ "")
       && bool_decide (AlertCriteria.Callsign criterion = Aircraft.Callsign aircraft)
    then true else match_ in
  match_.

Definition alert_message (aircraft : Aircraft.t) : string :=
  "Monitored aircraft detected: " +:+ Aircraft.Callsign aircraft
    +:+ " (" +:+ Aircraft.ICAO aircraft +:+ ")".

(** The struct literal of main.go:159-164. *)
Definition make_alert (aircraft : Aircraft.t) (criterion : AlertCriteria.t) (ts : Time)
  : Alert.t :=
  {| Alert.Aircraft := aircraft;
     Alert.Message := alert_message aircraft;
     Alert.Criteria := criterion;
     Alert.Timestamp := ts |}.

(** The body of the loop over [alertCriteria], main.go:149-175. *)
Definition check_criterion (aircraft : Aircraft.t) (criterion : AlertCriteria.t)
  : Handler unit :=
  if criterion_matches criterion aircraft then
    let* ts := time_Now in
    let alert := make_alert aircraft criterion ts in
    append_triggeredAlerts alert >>
    match marshalAlert rt alert with
    | None => ret tt
    | Some alertJSON => hub_broadcast (alert_frame alertJSON)
    end
  else ret tt.

(** [POST /api/aircraft]. *)
Definition postAircraft (body : string) : Handler Response :=
  match decodeAircraft rt body with
  | None => ret (JSON StatusBadRequest (JMap {[ "error" := "Invalid aircraft data" ]}))
  | Some decoded =>
      let* ts := time_Now in
      let aircraft := Aircraft.with_Timestamp ts decoded in
      match marshalAircraft rt aircraft with
      | None => ret tt
      | Some aircraftUpdateJSON => hub_broadcast (aircraftUpdate_frame aircraftUpdateJSON)
      end >>
      (let* criteria := read_alertCriteria in
       range criteria (check_criterion aircraft)) >>
      ret (JSON StatusOK (JMap {[ "status" := "received" ]}))
  end.

(** [GET /api/alerts]. *)
Definition getAlerts : Handler Response :=
  let* alertsToReturn := copy_triggeredAlerts in
  ret (JSON StatusOK (JAlerts alertsToReturn)).

(** [POST /api/alert-criteria]. *)
Definition postAlertCriteria (body : string) : Handler Response :=
  match decodeCriteria rt body with
  | None => ret (JSON StatusBadRequest (JMap {[ "error" := "Invalid criteria data" ]}))
  | Some criterion =>
      append_alertCriteria criterion >>
      ret (JSON StatusCreated (JCriterion criterion))
  end.

End Handlers.

(** The state [main] sets up before it starts serving, main.go:105-106:
    both package slices start nil and two criteria are appended. *)
Definition initial_alertCriteria : list AlertCriteria.t :=
  ([] ++ [ {| AlertCriteria.ICAO := ""; AlertCriteria.Callsign := "TARGET1" |} ])
    ++ [ {| AlertCriteria.ICAO := "AABBCC"; AlertCriteria.Callsign := "" |} ].

Definition main_init : Server :=
  {| alertCriteria := initial_alertCriteria;
     triggeredAlerts := nil_slice;
     mem := empty_mem;
     clock := 0 |}.

(** ** main.go: the broadcast hub *)

(** A single SSE client connection.  The channel is stored with the
    client: the hub and the endpoint both reach it through the same
    [*Client]. *)
Record Client := MkClient {
  ID : string;
  Send : Chan
}.

(** [clients] is the field of that name, keyed by client pointer;
    [objects] holds the [Client] values those pointers refer to, in
    allocation order, so that a pointer is an index into it.  The three
    request channels are unbuffered and are represented by the requests
    that [Hub.run] takes from them. *)
Record Hub := MkHub {
  clients : gmap nat bool;
  objects : list Client
}.

Definition newHub : Hub := {| clients := ∅; objects := [] |}.

(** [&Client{ID: id, Send: make(chan []byte, 256)}], main.go:216-219. *)
Definition new_Client (id : string) (h : Hub) : nat * Hub :=
  (length (objects h),
   {| clients := clients h;
      objects := objects h ++ [ {| ID := id; Send := make_chan 256 |} ] |}).

Inductive Request :=
  | Register (client : nat)
  | Unregister (client : nat)
  | Broadcast (message : string).

(** [case client := <-h.register]; the log line reads [client.ID]. *)
Definition on_register (client : nat) (h : Hub) : result Hub :=
  match objects h !! client with
  | None => Panic NilDereference
  | Some _ => Ok {| clients := <[client := true]> (clients h); objects := objects h |}
  end.

(** [delete(h.clients, client); close(client.Send)], shared by the
    unregister case and by the default branch of the broadcast. *)
Definition drop_client (client : nat) (h : Hub) : result Hub :=
  match objects h !! client with
  | None => Panic NilDereference
  | Some cl =>
      rbind (close (Send cl)) (fun ch =>
        Ok {| clients := delete client (clients h);
              objects := <[client := {| ID := ID cl; Send := ch |}]> (objects h) |})
  end.

(** [case client := <-h.unregister]. *)
Definition on_unregister (client : nat) (h : Hub) : result Hub :=
  match clients h !! client with
  | Some _ => drop_client client h
  | None => Ok h
  end.

(** One turn of the loop over [h.clients] in the broadcast case. *)
Definition deliver (message : string) (h : Hub) (client : nat) : result Hub :=
  match objects h !! client with
  | None => Panic NilDereference
  | Some cl =>
      rbind (try_send (Send cl) message) (fun sent =>
        match sent with
        | Some ch =>
            Ok {| clients := clients h;
                  objects := <[client := {| ID := ID cl; Send := ch |}]> (objects h) |}
        | None => drop_client client h
        end)
  end.

(** [case message := <-h.broadcast], visiting the clients in [order].
    Go leaves the order of a map iteration open; only the entry being
    visited is ever deleted, so every client of the map is visited
    once. *)
Definition broadcast_in (order : list nat) (message : string) (h : Hub) : result Hub :=
  foldl (fun r client => rbind r (fun h' => deliver message h' client)) (Ok h) order.

Definition on_broadcast (message : string) (h : Hub) : result Hub :=
  broadcast_in (map_to_list (clients h)).*1 message h.

(** One iteration of [Hub.run]. *)
Definition Hub_step (r : Request) (h : Hub) : result Hub :=
  match r with
  | Register client => on_register client h
  | Unregister client => on_unregister client h
  | Broadcast message => on_broadcast message h
  end.

(** What happens around the hub: a streaming endpoint creates its
    client (main.go:216), the hub serves a request, or an endpoint
    takes the next message out of its queue (main.go:230). *)
Inductive Action :=
  | Connect (id : string)
  | Serve (r : Request)
  | Receive (client : nat).

Definition on_receive (client : nat) (h : Hub) : result Hub :=
  match objects h !! client with
  | None => Panic NilDereference
  | Some cl =>
      match try_recv (Send cl) with
      | Some (_, ch) =>
          Ok {| clients := clients h;
                objects := <[client := {| ID := ID cl; Send := ch |}]> (objects h) |}
      | None => Ok h
      end
  end.

Definition step (a : Action) (h : Hub) : result Hub :=
  match a with
  | Connect id => Ok (new_Client id h).2
  | Serve r => Hub_step r h
  | Receive client => on_receive client h
  end.

Fixpoint run (acts : list Action) (h : Hub) : result Hub :=
  match acts with
  | [] => Ok h
  | a :: acts => rbind (step a h) (run acts)
  end.

(** The messages a handler sent on [hub.broadcast], served in order. *)
Definition fan_out (out : list string) (h : Hub) : result Hub :=
  run ((fun m => Serve (Broadcast m)) <$> out) h.

(** The number of memberships [client] has in the client set. *)
Definition memberships (h : Hub) (client : nat) : nat :=
  length (filter (fun kv => kv.1 = client) (map_to_list (clients h))).

(** A queue is open when its client exists and its channel is not
    closed. *)
Definition queue_open (h : Hub) (client : nat) : Prop :=
  exists cl, objects h !! client = Some cl /\ closed (Send cl) = false.

(** What holds of the hub between any two steps: registered clients have
    open queues, and every queue is one made by [new_Client]. *)
Record Hub_ok (h : Hub) : Prop := {
  members_open : forall client, is_Some (clients h !! client) -> queue_open h client;
  queues_bounded : forall client cl, objects h !! client = Some cl ->
    capacity (Send cl) = 256 /\ length (buf (Send cl)) <= 256
}.

(** No [Register] in [acts] names a client whose queue is closed (or
    that does not exist) at the moment the hub serves it, and an
    endpoint receives on a client that exists. *)
Definition admissible (a : Action) (h : Hub) : Prop :=
  match a with
  | Serve (Register client) => queue_open h client
  | Receive client => is_Some (objects h !! client)
  | _ => True
  end.

Fixpoint admissible_run (acts : list Action) (h : Hub) : Prop :=
  match acts with
  | [] => True
  | a :: acts =>
      admissible a h /\
      match step a h with
      | Ok h' => admissible_run acts h'
      | Panic _ => True
      end
  end.

(** The client as a broadcast leaves it: with the message at the end of
    its queue, or with its queue closed. *)
Definition enqueued (message : string) (cl : Client) : Client :=
  {| ID := ID cl;
     Send := {| buf := buf (Send cl) ++ [message];
                capacity := capacity (Send cl); closed := false |} |}.

Definition shut (cl : Client) : Client :=
  {| ID := ID cl;
     Send := {| buf := buf (Send cl); capacity := capacity (Send cl); closed := true |} |}.

(** The requests of the HTTP API that touch the package state, and the
    server state after a history of them. *)
Inductive HTTP :=
  | POST_aircraft (body : string)
  | GET_alerts
  | POST_alert_criteria (body : string).

Definition serve (rt : Runtime) (r : HTTP) : Handler Response :=
  match r with
  | POST_aircraft body => postAircraft rt body
  | GET_alerts => getAlerts
  | POST_alert_criteria body => postAlertCriteria rt body
  end.

Fixpoint serve_all (rt : Runtime) (rs : list HTTP) (s : Server) : Server :=
  match rs with
  | [] => s
  | r :: rs => serve_all rt rs (serve rt r s).1.2
  end.

Definition adds_criterion (r : HTTP) : bool :=
  match r with
  | POST_alert_criteria _ => true
  | _ => false
  end.

(** The alert log points into memory that has been allocated. *)
Definition log_allocated (s : Server) : Prop :=
  ptr (triggeredAlerts s) < next (mem s).

(** What a caller may do with the slice it was handed: a series of
    assignments [sl[i] = x]. *)
Fixpoint mutate (sl : Slice) (writes : list (nat * Alert.t)) (m : Mem Alert.t)
  : result (Mem Alert.t) :=
  match writes with
  | [] => Ok m
  | (i, x) :: writes => rbind (set_index sl i x m) (mutate sl writes)
  end.

Definition with_mem (m : Mem Alert.t) (s : Server) : Server :=
  {| alertCriteria := alertCriteria s; triggeredAlerts := triggeredAlerts s;
     mem := m; clock := clock s |}.

(** The slice a response carries ([GET /api/alerts]). *)
Definition alerts_payload (r : Response) : Slice :=
  match payload r with
  | JAlerts sl => sl
  | _ => nil_slice
  end.

(** ** The matching rule in the words of the specification

    A criterion matches when its icao is non-empty and equals the
    aircraft's, or its callsign is non-empty and equals the aircraft's. *)
Definition Matches (aircraft : Aircraft.t) (criterion : AlertCriteria.t) : Prop :=
  (AlertCriteria.ICAO criterion ≠ "" /\
   AlertCriteria.ICAO criterion = Aircraft.ICAO aircraft) \/
  (AlertCriteria.Callsign criterion ≠ "" /\
   AlertCriteria.Callsign criterion = Aircraft.Callsign aircraft).

#[global] Instance Matches_dec aircraft criterion : Decision (Matches aircraft criterion).
Proof. unfold Matches. apply _. Defined.

(** [evaluate(aircraft, criteria)]: one alert per matching criterion, in
    the order of the criteria; the [k]-th of them carries the [k]-th
    clock reading from [n] on. *)
Definition evaluate (rt : Runtime) (aircraft : Aircraft.t) (n : nat)
    (criteria : list AlertCriteria.t) : list Alert.t :=
  imap (fun k criterion => make_alert aircraft criterion (now rt (n + k)))
       (filter (Matches aircraft) criteria).

(** The frames of the alerts that could be marshalled. *)
Definition alert_frames (rt : Runtime) (alerts : list Alert.t) : list string :=
  omap (fun alert => alert_frame <$> marshalAlert rt alert) alerts.

Definition aircraftUpdate_frames (rt : Runtime) (aircraft : Aircraft.t) : list string :=
  match marshalAircraft rt aircraft with
  | None => []
  | Some json => [aircraftUpdate_frame json]
  end.

(** ** A runtime to run the handlers with

    An empty body is a decode error (the decoder reports EOF); any other
    body stands for a record naming it.  [marshal_ok] says whether
    marshalling succeeds. *)
Definition sample_aircraft (icao callsign : string) : Aircraft.t :=
  {| Aircraft.ICAO := icao; Aircraft.Callsign := callsign;
     Aircraft.Latitude := 0%Z; Aircraft.Longitude := 0%Z; Aircraft.Altitude := 35000%Z;
     Aircraft.Speed := 0%Z; Aircraft.Track := 0%Z; Aircraft.Timestamp := UnixNano 7 |}.

Definition test_runtime (marshal_ok : bool) : Runtime :=
  {| now := fun n => UnixNano (1000 + Z.of_nat n);
     decodeAircraft := fun body =>
       if decide (body = "") then None else Some (sample_aircraft "AABBCC" body);
     decodeCriteria := fun body =>
       if decide (body = "") then None
       else if decide (body = "{}") then Some AlertCriteria.zero
       else Some {| AlertCriteria.ICAO := body; AlertCriteria.Callsign := "" |};
     marshalAircraft := fun aircraft =>
       if marshal_ok then Some (Aircraft.ICAO aircraft) else None;
     marshalAlert := fun alert =>
       if marshal_ok then Some (Alert.Message alert) else None;
     growslice := fun c => 2 * c |}.

(** A hub with a client whose queue is full and one whose queue is
    empty, both registered. *)
Definition crowded_hub : Hub :=
  {| clients := {[ 0 := true; 1 := true ]};
     objects :=
       [ {| ID := "10.0.0.1:40000";
            Send := {| buf := replicate 256 "tick"; capacity := 256; closed := false |} |};
         {| ID := "10.0.0.2:40000"; Send := make_chan 256 |} ] |}.

(** ** main.go: the streaming endpoint, [GET /api/events]

    One handler runs per connection.  [Streaming] is the loop of
    main.go:228-245, [Leaving] is the handler between its [return] and
    the deferred send on [hub.unregister], [Gone] is the handler after
    it.  [written] lists what went to the connection with [Write] and
    [Flush], oldest first.  The response headers are not represented. *)
Inductive Phase := Streaming | Leaving | Gone.

Record Session := MkSession {
  session_client : nat;
  phase : Phase;
  written : list string
}.

Definition StatusInternalServerError : nat := 500.

(** Which case of the [select] of main.go:229 is taken, and whether
    [c.Response.Write] succeeds when a message is written. *)
Inductive Select :=
  | SendReady (write_ok : bool)
  | ContextDone.

(** The handler up to its loop, main.go:206-227.  [flusher] says whether
    the response writer is an [http.Flusher]. *)
Definition getEvents_open (flusher : bool) (remoteAddr : string) (h : Hub)
  : result ((Response + Session) * Hub) :=
  if flusher then
    let r := new_Client remoteAddr h in
    rbind (on_register r.1 r.2) (fun h' =>
      Ok (inr {| session_client := r.1; phase := Streaming; written := [] |}, h'))
  else
    Ok (inl (JSON StatusInternalServerError
                  (JMap {[ "error" := "Streaming unsupported!" ]})), h).

Definition enter (p : Phase) (ses : Session) : Session :=
  {| session_client := session_client ses; phase := p; written := written ses |}.

(** One step of the handler: a turn of the loop while [Streaming] (a
    [select] case that is not ready leaves everything as it is), the
    deferred [hub.unregister <- client] while [Leaving]. *)
Definition getEvents_turn (sel : Select) (ses : Session) (h : Hub)
  : result (Session * Hub) :=
  match phase ses with
  | Streaming =>
      match sel with
      | SendReady write_ok =>
          match objects h !! session_client ses with
          | None => Panic NilDereference
          | Some cl =>
              match try_recv (Send cl) with
              | None => Ok (ses, h)
              | Some (None, _) => Ok (enter Leaving ses, h)
              | Some (Some message, ch) =>
                  let h' := {| clients := clients h;
                               objects := <[session_client ses := {| ID := ID cl; Send := ch |}]>
                                            (objects h) |} in
                  if write_ok
                  then Ok ({| session_client := session_client ses; phase := Streaming;
                              written := written ses ++ [message] |}, h')
                  else Ok (enter Leaving ses, h')
              end
          end
      | ContextDone => Ok (enter Leaving ses, h)
      end
  | Leaving =>
      rbind (on_unregister (session_client ses) h) (fun h' => Ok (enter Gone ses, h'))
  | Gone => Ok (ses, h)
  end.

(** The hub together with the handlers of the connections opened so
    far, and what can happen next: a connection is opened, the handler
    of connection [i] takes a step, or the hub serves one message sent
    on [hub.broadcast].  The hub is one goroutine, so it serves one
    request at a time; a receive that overlaps a broadcast touches one
    queue only and comes before or after the hub's send on that queue,
    so it is taken as happening before or after the broadcast. *)
Record World := MkWorld {
  hub : Hub;
  sessions : list Session
}.

(** [hub = newHub()], main.go:95. *)
Definition boot : World := {| hub := newHub; sessions := [] |}.

Inductive Event :=
  | Opens (flusher : bool) (remoteAddr : string)
  | Turn (i : nat) (sel : Select)
  | Publish (message : string).

Definition world_step (e : Event) (w : World) : result World :=
  match e with
  | Opens flusher remoteAddr =>
      rbind (getEvents_open flusher remoteAddr (hub w)) (fun r =>
        match r.1 with
        | inl _ => Ok {| hub := r.2; sessions := sessions w |}
        | inr ses => Ok {| hub := r.2; sessions := sessions w ++ [ses] |}
        end)
  | Turn i sel =>
      match sessions w !! i with
      | None => Ok w
      | Some ses =>
          rbind (getEvents_turn sel ses (hub w)) (fun r =>
            Ok {| hub := r.2; sessions := <[i := r.1]> (sessions w) |})
      end
  | Publish message =>
      rbind (on_broadcast message (hub w)) (fun h' =>
        Ok {| hub := h'; sessions := sessions w |})
  end.

Fixpoint world_run (events : list Event) (w : World) : result World :=
  match events with
  | [] => Ok w
  | e :: events => rbind (world_step e w) (world_run events)
  end.

(** The messages published by a list of events, oldest first. *)
Definition published (events : list Event) : list string :=
  omap (fun e => match e with Publish message => Some message | _ => None end) events.

(** What connection [i] has been given so far: what its handler wrote,
    followed by what waits in its queue. *)
Definition stream_of (w : World) (i : nat) : list string :=
  match sessions w !! i with
  | None => []
  | Some ses =>
      written ses ++
      match objects (hub w) !! session_client ses with
      | None => []
      | Some cl => buf (Send cl)
      end
  end.

(** Connection [i] is in its loop and its client is in the hub's set. *)
Definition healthy (w : World) (i : nat) : Prop :=
  exists ses, sessions w !! i = Some ses /\ phase ses = Streaming /\
              is_Some (clients (hub w) !! session_client ses).

(** What holds of the hub and the handlers between any two events. *)
Record World_ok (w : World) : Prop := {
  world_hub_ok : Hub_ok (hub w);
  clients_exist : forall i ses, sessions w !! i = Some ses ->
    session_client ses < length (objects (hub w));
  clients_distinct : forall i j si sj,
    sessions w !! i = Some si -> sessions w !! j = Some sj ->
    session_client si = session_client sj -> i = j;
  gone_released : forall i ses, sessions w !! i = Some ses -> phase ses = Gone ->
    clients (hub w) !! session_client ses = None;
  released_closed : forall client cl,
    objects (hub w) !! client = Some cl -> clients (hub w) !! client = None ->
    closed (Send cl) = true;
  members_live : forall client, is_Some (clients (hub w) !! client) ->
    exists i ses, sessions w !! i = Some ses /\ session_client ses = client /\
                  phase ses <> Gone
}.

(** ** The simulator: the altitude adjustment of [updateAircraftPosition]

    [ac.Altitude] is an [int]; [draw] is the value of [rand.Intn(10)].
    The statements of main.go:339-345, with the 64-bit wrap-around of
    Go's integer arithmetic.  The rest of the function is floating-point
    and is not modelled. *)
Definition int64_wrap (z : Z) : Z := ((z + 2 ^ 63) mod 2 ^ 64 - 2 ^ 63)%Z.

Definition adjust_altitude (altitude draw : Z) : Z :=
  let altitude := int64_wrap (altitude + int64_wrap (int64_wrap (draw - 5) * 10)) in
  let altitude := if (altitude <? 100)%Z then 100%Z else altitude in
  let altitude := if (55000 <? altitude)%Z then 55000%Z else altitude in
  altitude.

(** ** What a client of the HTTP API sees

    The value [c.JSON] serialises: for [GET /api/alerts], the elements
    of the slice at the time of the response. *)
Inductive Rendered :=
  | RMap (kv : gmap string string)
  | RCriterion (c : AlertCriteria.t)
  | RAlerts (alerts : list Alert.t).

Definition render (resp : Response) (s : Server) : nat * Rendered :=
  (status resp,
   match payload resp with
   | JMap kv => RMap kv
   | JCriterion c => RCriterion c
   | JAlerts sl => RAlerts (view Alert.zero (mem s) sl)
   end).

(** Responses and hub messages of a history of requests, in order. *)
Fixpoint transcript (rt : Runtime) (rs : list HTTP) (s : Server)
  : list (nat * Rendered * list string) :=
  match rs with
  | [] => []
  | r :: rs =>
      let res := serve rt r s in
      (render res.1.1 res.1.2, res.2) :: transcript rt rs res.1.2
  end.

(** The criterion a request adds, if any. *)
Definition accepted_criterion (rt : Runtime) (r : HTTP) : option AlertCriteria.t :=
  match r with
  | POST_alert_criteria body => decodeCriteria rt body
  | _ => None
  end.

(** What later requests can depend on: the criteria, the contents of
    the log and the clock, not where the log sits in memory. *)
Definition observable (s : Server) : list AlertCriteria.t * list Alert.t * nat :=
  (alertCriteria s, alerts_of s, clock s).

(** * Facts about the slice memory *)

Section MemoryFacts.
Context {A : Type} (zero : A).
Implicit Types (m : Mem A) (s t : Slice) (x : A) (xs : list A).
Local Abbreviation load := (Go.load zero).
Local Abbreviation view := (Go.view zero).
Local Abbreviation append := (Go.append zero).
Local Abbreviation set_index := (@Go.set_index A).

Lemma load_store_same m p i x : load (store m p i x) p i = x.
Proof. unfold load, store; simpl. by rewrite lookup_insert_eq. Qed.

Lemma load_store_other m p i q j x :
  (p, i) ≠ (q, j) -> load (store m p i x) q j = load m q j.
Proof. intros Hne. unfold load, store; simpl. by rewrite lookup_insert_ne. Qed.

Lemma next_store_from xs : forall m p i, next (store_from m p i xs) = next m.
Proof. induction xs as [|x xs IH]; intros m p i; simpl; [done|]. by rewrite IH. Qed.

Lemma load_store_from_other xs : forall m p i q j,
  p ≠ q -> load (store_from m p i xs) q j = load m q j.
Proof.
  induction xs as [|x xs IH]; intros m p i q j Hne; simpl; [done|].
  rewrite IH by done. apply load_store_other. congruence.
Qed.

Lemma load_store_from_below xs : forall m p i j,
  j < i -> load (store_from m p i xs) p j = load m p j.
Proof.
  induction xs as [|x xs IH]; intros m p i j Hlt; simpl; [done|].
  rewrite IH by lia. apply load_store_other. intros [= ?]. lia.
Qed.

Lemma load_store_from_in xs : forall m p i k x,
  xs !! k = Some x -> load (store_from m p i xs) p (i + k) = x.
Proof.
  induction xs as [|y xs IH]; intros m p i k x Hk; [done|].
  destruct k as [|k]; simpl in *.
  - injection Hk as ->. rewrite Nat.add_0_r.
    rewrite load_store_from_below by lia. apply load_store_same.
  - replace (i + S k) with (S i + k) by lia. by apply IH.
Qed.

Lemma view_store_from m p xs c :
  view (store_from m p 0 xs) {| ptr := p; len := length xs; cap := c |} = xs.
Proof.
  unfold view; simpl. apply list_eq. intros k.
  rewrite list_lookup_fmap.
  destruct (xs !! k) as [x|] eqn:Hk.
  - assert (k < length xs) by (by eapply lookup_lt_Some).
    rewrite lookup_seq_lt by done. simpl.
    f_equal. by apply (load_store_from_in xs m p 0 k x).
  - apply lookup_ge_None in Hk. by rewrite lookup_seq_ge.
Qed.

Lemma view_ext m m' s s' :
  len s = len s' ->
  (forall i, i < len s -> load m (ptr s) i = load m' (ptr s') i) ->
  view m s = view m' s'.
Proof.
  intros Hlen Hload. unfold view. rewrite <- Hlen.
  apply list_fmap_ext. intros k i Hk.
  apply lookup_seq in Hk as [-> Hk]. by apply Hload.
Qed.

Lemma length_view m s : length (view m s) = len s.
Proof. unfold view. by rewrite length_fmap, length_seq. Qed.

(** [append] adds the element at the end, whichever branch runs. *)
Lemma view_append grow s x m :
  view (append grow s x m).2 (append grow s x m).1 = view m s ++ [x].
Proof.
  unfold append. case_decide as Hroom; simpl.
  - unfold view. cbn [fst snd ptr len]. rewrite seq_S, fmap_app.
    cbn [fmap list_fmap Nat.add]. rewrite load_store_same. f_equal.
    apply list_fmap_ext. intros k i Hk. apply lookup_seq in Hk as [-> Hk].
    apply load_store_other. intros [= ?]. lia.
  - set (xs := view m s ++ [x]).
    assert (Hlen : S (len s) = length xs).
    { unfold xs. rewrite length_app, length_view. simpl. lia. }
    rewrite Hlen. apply view_store_from.
Qed.

(** A slice keeps its contents when another block is written. *)
Lemma view_set_index_other s t i x m m' :
  ptr s ≠ ptr t -> set_index t i x m = Ok m' -> view m' s = view m s.
Proof.
  unfold set_index. intros Hne Hset. case_decide; [|done].
  injection Hset as <-. apply view_ext; [done|]. intros j _.
  apply load_store_other. congruence.
Qed.

(** [make] followed by [copy] yields a slice with the contents of the
    source, in a block of its own, and leaves the source as it was. *)
Lemma view_make_copy m src :
  ptr src < next m ->
  let r := Go.make zero (len src) m in
  let m2 := Go.copy zero r.1 src r.2 in
  view m2 r.1 = view m src /\ view m2 src = view m src /\
  ptr r.1 = next m /\ len r.1 = len src /\ next m2 = S (next m).
Proof.
  intros Hlt. simpl. unfold Go.copy. simpl.
  set (m0 := {| cells := cells m; next := S (next m) |}).
  set (m1 := store_from m0 (next m) 0 (replicate (len src) zero)).
  assert (Hsrc : view m1 src = view m src).
  { apply view_ext; [done|]. intros i _. unfold m1.
    rewrite load_store_from_other by lia. done. }
  rewrite Hsrc, take_ge by (rewrite length_view; lia).
  split_and!; try done.
  - pose proof (view_store_from m1 (next m) (view m src) (len src)) as Hv.
    by rewrite length_view in Hv.
  - rewrite <- Hsrc at 2. apply view_ext; [done|]. intros i _.
    apply load_store_from_other. lia.
  - unfold m1. rewrite !next_store_from. reflexivity.
Qed.

End MemoryFacts.

(** * The ingestion handler *)

Section HandlerFacts.
Context (rt : Runtime).
Implicit Types (s : Server) (aircraft decoded : Aircraft.t)
  (criterion : AlertCriteria.t) (criteria : list AlertCriteria.t).

(** The two guarded assignments of the loop body compute [Matches]. *)
Lemma criterion_matches_iff criterion aircraft :
  criterion_matches criterion aircraft = true <-> Matches aircraft criterion.
Proof.
  unfold criterion_matches, Matches.
  repeat case_bool_decide; simpl; intuition congruence.
Qed.

Lemma criterion_matches_decide criterion aircraft :
  criterion_matches criterion aircraft = bool_decide (Matches aircraft criterion).
Proof.
  destruct (criterion_matches criterion aircraft) eqn:E; symmetry.
  - apply bool_decide_eq_true, criterion_matches_iff, E.
  - apply bool_decide_eq_false. rewrite <- criterion_matches_iff. congruence.
Qed.

Lemma evaluate_nil aircraft n : evaluate rt aircraft n [] = [].
Proof. reflexivity. Qed.

Lemma evaluate_skip aircraft n criterion criteria :
  ~ Matches aircraft criterion ->
  evaluate rt aircraft n (criterion :: criteria) = evaluate rt aircraft n criteria.
Proof. intros Hno. unfold evaluate. by rewrite filter_cons_False. Qed.

Lemma evaluate_hit aircraft n criterion criteria :
  Matches aircraft criterion ->
  evaluate rt aircraft n (criterion :: criteria)
  = make_alert aircraft criterion (now rt n) :: evaluate rt aircraft (S n) criteria.
Proof.
  intros Hyes. unfold evaluate. rewrite filter_cons_True by done.
  rewrite imap_cons, Nat.add_0_r. f_equal.
  apply imap_ext. intros k c _. simpl. do 2 f_equal. lia.
Qed.

Lemma length_evaluate aircraft n criteria :
  length (evaluate rt aircraft n criteria) = length (filter (Matches aircraft) criteria).
Proof. unfold evaluate. apply length_imap. Qed.

Lemma evaluate_Criteria aircraft n criteria :
  Alert.Criteria <$> evaluate rt aircraft n criteria = filter (Matches aircraft) criteria.
Proof.
  unfold evaluate. generalize (filter (Matches aircraft) criteria) as cs.
  intros cs. revert n. induction cs as [|c cs IH]; intros n; [done|].
  rewrite imap_cons, fmap_cons. simpl. f_equal.
  etrans; [|apply (IH (S n))]. f_equal. apply imap_ext. intros k c' _. simpl.
  do 2 f_equal. lia.
Qed.

Lemma elem_of_evaluate alert aircraft n criteria :
  alert ∈ evaluate rt aircraft n criteria ->
  Alert.Aircraft alert = aircraft /\
  Alert.Message alert = alert_message aircraft /\
  Alert.Criteria alert ∈ criteria /\
  Matches aircraft (Alert.Criteria alert).
Proof.
  unfold evaluate. intros Hin.
  apply elem_of_lookup_imap_1 in Hin as (k & c & -> & Hk).
  apply list_elem_of_lookup_2 in Hk. apply list_elem_of_filter in Hk as [? ?].
  by simpl.
Qed.

(** Appending to the log keeps it inside allocated memory. *)
Lemma log_allocated_append s alert :
  log_allocated s -> log_allocated (append_triggeredAlerts rt alert s).1.2.
Proof.
  unfold log_allocated, append_triggeredAlerts, append; simpl.
  intros Hwf. case_decide; simpl; [done|].
  rewrite next_store_from. simpl. lia.
Qed.

Lemma check_criterion_miss aircraft criterion s :
  ~ Matches aircraft criterion ->
  check_criterion rt aircraft criterion s = (tt, s, []).
Proof.
  intros Hno. unfold check_criterion.
  rewrite criterion_matches_decide, bool_decide_eq_false_2 by done. reflexivity.
Qed.

Lemma check_criterion_hit aircraft criterion s :
  Matches aircraft criterion ->
  let alert := make_alert aircraft criterion (now rt (clock s)) in
  check_criterion rt aircraft criterion s
  = (tt, (append_triggeredAlerts rt alert (time_Now rt s).1.2).1.2,
     alert_frames rt [alert]).
Proof.
  intros Hyes alert. unfold check_criterion.
  rewrite criterion_matches_decide, bool_decide_eq_true_2 by done.
  unfold bind, time_Now, append_triggeredAlerts, alert_frames. simpl.
  fold alert. by destruct (marshalAlert rt alert).
Qed.

(** The loop over the criteria appends what [evaluate] lists, in that
    order, and sends the frames of those it could marshal. *)
Lemma range_check_criterion aircraft criteria : forall s,
  exists s',
    range criteria (check_criterion rt aircraft) s
      = (tt, s', alert_frames rt (evaluate rt aircraft (clock s) criteria)) /\
    alertCriteria s' = alertCriteria s /\
    alerts_of s' = alerts_of s ++ evaluate rt aircraft (clock s) criteria /\
    clock s' = clock s + length (evaluate rt aircraft (clock s) criteria) /\
    (log_allocated s -> log_allocated s').
Proof.
  induction criteria as [|c cs IH]; intros s.
  - exists s. rewrite evaluate_nil, app_nil_r. simpl. by rewrite Nat.add_0_r.
  - cbn [range]. unfold bind.
    destruct (decide (Matches aircraft c)) as [Hm|Hm].
    + rewrite evaluate_hit, check_criterion_hit by done.
      set (alert := make_alert aircraft c (now rt (clock s))).
      set (s1 := (append_triggeredAlerts rt alert (time_Now rt s).1.2).1.2).
      destruct (IH s1) as (s' & Hrun & Hcrit & Hlog & Hclock & Hwf).
      assert (Hclock1 : clock s1 = S (clock s)) by done.
      assert (Hlog1 : alerts_of s1 = alerts_of s ++ [alert]).
      { unfold alerts_of, s1. simpl. apply view_append. }
      rewrite Hclock1 in *. rewrite Hrun.
      exists s'. split_and!.
      * unfold alert_frames.
        by rewrite (omap_app _ [alert] (evaluate rt aircraft (S (clock s)) cs)).
      * by rewrite Hcrit.
      * rewrite Hlog, Hlog1, <- app_assoc. done.
      * rewrite Hclock. simpl. lia.
      * intros Hs. apply Hwf. by apply (log_allocated_append s alert) in Hs.
    + rewrite evaluate_skip, check_criterion_miss by done.
      destruct (IH s) as (s' & Hrun & ?). exists s'. split; [|done].
      by rewrite Hrun.
Qed.

(** What an accepted ingestion does, in one statement. *)
Lemma postAircraft_accepted body decoded s :
  decodeAircraft rt body = Some decoded ->
  let aircraft := Aircraft.with_Timestamp (now rt (clock s)) decoded in
  let raised := evaluate rt aircraft (S (clock s)) (alertCriteria s) in
  exists s',
    postAircraft rt body s
      = (JSON StatusOK (JMap {[ "status" := "received" ]}), s',
         aircraftUpdate_frames rt aircraft ++ alert_frames rt raised) /\
    alertCriteria s' = alertCriteria s /\
    alerts_of s' = alerts_of s ++ raised /\
    clock s' = S (clock s) + length raised /\
    (log_allocated s -> log_allocated s').
Proof.
  intros Hdec aircraft raised. unfold postAircraft. rewrite Hdec.
  set (s0 := (time_Now rt s).1.2).
  destruct (range_check_criterion aircraft (alertCriteria s) s0)
    as (s' & Hrun & Hcrit & Hlog & Hclock & Hwf).
  change (clock s0) with (S (clock s)) in *.
  change (alertCriteria s0) with (alertCriteria s) in *.
  change (alerts_of s0) with (alerts_of s) in *.
  fold raised in Hrun, Hlog, Hclock.
  exists s'. split; [|done].
  unfold bind, time_Now, read_alertCriteria, aircraftUpdate_frames. simpl.
  fold aircraft.
  change (MkServer (alertCriteria s) _ _ (S (clock s))) with s0.
  destruct (marshalAircraft rt aircraft); simpl; rewrite Hrun; simpl;
    by rewrite ?app_nil_r.
Qed.

Lemma postAircraft_rejected body s :
  decodeAircraft rt body = None ->
  postAircraft rt body s
  = (JSON StatusBadRequest (JMap {[ "error" := "Invalid aircraft data" ]}), s, []).
Proof. intros Hdec. unfold postAircraft. by rewrite Hdec. Qed.

(** Whatever the body, the log grows at its end, by alerts whose
    criterion is in the list and matches their aircraft. *)
Lemma postAircraft_log body s :
  exists raised,
    alerts_of (postAircraft rt body s).1.2 = alerts_of s ++ raised /\
    Forall (fun alert => Alert.Criteria alert ∈ alertCriteria s /\
                         Matches (Alert.Aircraft alert) (Alert.Criteria alert)) raised /\
    alertCriteria (postAircraft rt body s).1.2 = alertCriteria s /\
    (log_allocated s -> log_allocated (postAircraft rt body s).1.2).
Proof.
  destruct (decodeAircraft rt body) as [decoded|] eqn:Hdec.
  - destruct (postAircraft_accepted body decoded s Hdec)
      as (s' & -> & Hcrit & Hlog & _ & Hwf). simpl.
    eexists. split; [exact Hlog|]. split; [|done].
    apply Forall_forall. intros alert Hin.
    apply elem_of_evaluate in Hin as (-> & _ & ? & ?). done.
  - rewrite postAircraft_rejected by done. simpl.
    exists []. by rewrite app_nil_r.
Qed.

(** [GET /api/alerts] hands out a slice in a fresh block holding the
    log, and leaves the log as it was. *)
Lemma getAlerts_copy s :
  log_allocated s ->
  exists sl s1,
    getAlerts s = (JSON StatusOK (JAlerts sl), s1, []) /\
    view Alert.zero (mem s1) sl = alerts_of s /\
    alerts_of s1 = alerts_of s /\
    triggeredAlerts s1 = triggeredAlerts s /\
    alertCriteria s1 = alertCriteria s /\
    ptr sl = next (mem s) /\
    next (mem s1) = S (next (mem s)).
Proof.
  intros Hwf.
  destruct (view_make_copy Alert.zero (mem s) (triggeredAlerts s) Hwf)
    as (Hcopy & Hlog & Hptr & _ & Hnext).
  eexists _, _. split; [reflexivity|]. simpl. by split_and!.
Qed.

End HandlerFacts.

(** * Claims about the HTTP handlers *)

Lemma evaluate_none rt aircraft n criteria :
  Forall (fun criterion => ~ Matches aircraft criterion) criteria ->
  evaluate rt aircraft n criteria = [].
Proof.
  induction 1 as [|c cs Hc _ IH]; [done|]. by rewrite evaluate_skip.
Qed.

(** C1.  For a decoded aircraft record and any criteria list, the loop
    of [POST /api/aircraft] goes through the criteria in list order; its
    test is true exactly when the criterion's icao is non-empty and
    equal to the aircraft's or its callsign is non-empty and equal to the
    aircraft's; the alerts appended to the log are one per matching
    criterion (kept with duplicates, in list order), and none when no
    criterion matches. *)
Theorem matching_step_one_alert_per_match rt body decoded s :
  decodeAircraft rt body = Some decoded ->
  let aircraft := Aircraft.with_Timestamp (now rt (clock s)) decoded in
  let raised := evaluate rt aircraft (S (clock s)) (alertCriteria s) in
  (forall criterion,
     criterion_matches criterion aircraft = true <->
     (AlertCriteria.ICAO criterion ≠ "" /\
      AlertCriteria.ICAO criterion = Aircraft.ICAO decoded) \/
     (AlertCriteria.Callsign criterion ≠ "" /\
      AlertCriteria.Callsign criterion = Aircraft.Callsign decoded)) /\
  alerts_of (postAircraft rt body s).1.2 = alerts_of s ++ raised /\
  Alert.Criteria <$> raised = filter (Matches aircraft) (alertCriteria s) /\
  length raised = length (filter (Matches aircraft) (alertCriteria s)) /\
  Forall (fun alert => Alert.Aircraft alert = aircraft) raised /\
  (Forall (fun criterion => ~ Matches aircraft criterion) (alertCriteria s) ->
   alerts_of (postAircraft rt body s).1.2 = alerts_of s).
Proof.
  intros Hdec aircraft raised.
  destruct (postAircraft_accepted rt body decoded s Hdec) as (s' & -> & _ & Hlog & _).
  fold aircraft in Hlog. fold raised in Hlog. simpl.
  split_and!.
  - intros criterion. apply criterion_matches_iff.
  - exact Hlog.
  - apply evaluate_Criteria.
  - apply length_evaluate.
  - apply Forall_forall. intros alert Hin. by apply elem_of_evaluate in Hin as (? & _).
  - intros Hnone. rewrite Hlog. unfold raised.
    rewrite evaluate_none by done. apply app_nil_r.
Qed.

(** A criterion with both fields set and an aircraft that shares only
    the icao: one alert, beside the one of the seeded icao criterion. *)
Lemma matching_step_one_alert_per_match_witness :
  decodeAircraft (test_runtime true) "Y" = Some (sample_aircraft "AABBCC" "Y") /\
  Alert.Criteria <$>
    alerts_of (postAircraft (test_runtime true) "Y"
                 (postAlertCriteria (test_runtime true) "AABBCC" main_init).1.2).1.2
  = [ {| AlertCriteria.ICAO := "AABBCC"; AlertCriteria.Callsign := "" |};
      {| AlertCriteria.ICAO := "AABBCC"; AlertCriteria.Callsign := "" |} ].
Proof.
  split; [reflexivity|].
  pose proof (matching_step_one_alert_per_match (test_runtime true) "Y"
                (sample_aircraft "AABBCC" "Y")
                (postAlertCriteria (test_runtime true) "AABBCC" main_init).1.2
                eq_refl) as (_ & Hlog & Hcrit & _).
  rewrite Hlog, fmap_app, Hcrit. reflexivity.
Defined.

(** C5.  A body that fails to decode as an Aircraft record is answered
    with status 400 and the body error = Invalid aircraft data; the alert
    log and the criteria list are unchanged (the whole package state is)
    and nothing is sent to the hub, so no client queue changes. *)
Theorem malformed_aircraft_rejected rt body s :
  decodeAircraft rt body = None ->
  postAircraft rt body s
    = (JSON 400 (JMap {[ "error" := "Invalid aircraft data" ]}), s, []) /\
  alerts_of (postAircraft rt body s).1.2 = alerts_of s /\
  alertCriteria (postAircraft rt body s).1.2 = alertCriteria s /\
  (forall h, fan_out (postAircraft rt body s).2 h = Ok h).
Proof.
  intros Hdec. rewrite postAircraft_rejected by done. by split_and!.
Qed.

Lemma malformed_aircraft_rejected_witness :
  decodeAircraft (test_runtime true) "" = None /\
  postAircraft (test_runtime true) "" main_init
    = (JSON 400 (JMap {[ "error" := "Invalid aircraft data" ]}), main_init, []).
Proof.
  split; [reflexivity|].
  apply (malformed_aircraft_rejected (test_runtime true) "" main_init). reflexivity.
Defined.

(** C7.  Once the body has decoded, the handler answers 200 with
    status = received whatever the marshallers do; the alerts of all
    matching criteria are in the log whether or not their events could
    be marshalled; and the messages sent to the hub are the aircraft
    event, if it marshalled, followed by the events of exactly those
    alerts that marshalled, so a failure skips that one message only. *)
Theorem marshal_failure_skips_one_broadcast rt body decoded s :
  decodeAircraft rt body = Some decoded ->
  let aircraft := Aircraft.with_Timestamp (now rt (clock s)) decoded in
  let raised := evaluate rt aircraft (S (clock s)) (alertCriteria s) in
  (postAircraft rt body s).1.1 = JSON 200 (JMap {[ "status" := "received" ]}) /\
  alerts_of (postAircraft rt body s).1.2 = alerts_of s ++ raised /\
  (postAircraft rt body s).2
    = match marshalAircraft rt aircraft with
      | Some json => [aircraftUpdate_frame json]
      | None => []
      end
      ++ omap (fun alert => alert_frame <$> marshalAlert rt alert) raised /\
  (forall alert, alert ∈ raised -> marshalAlert rt alert = None ->
     alert ∈ alerts_of (postAircraft rt body s).1.2).
Proof.
  intros Hdec aircraft raised.
  destruct (postAircraft_accepted rt body decoded s Hdec) as (s' & -> & _ & Hlog & _).
  fold aircraft in Hlog. fold raised in Hlog. simpl.
  split_and!; [done|exact Hlog|done|].
  intros alert Hin _. rewrite Hlog. apply elem_of_app. by right.
Qed.

(** With marshalling failing throughout, the alert is logged, nothing is
    sent, and the answer is still 200. *)
Lemma marshal_failure_skips_one_broadcast_witness :
  decodeAircraft (test_runtime false) "TARGET1" = Some (sample_aircraft "AABBCC" "TARGET1") /\
  (postAircraft (test_runtime false) "TARGET1" main_init).1.1
    = JSON 200 (JMap {[ "status" := "received" ]}) /\
  length (alerts_of (postAircraft (test_runtime false) "TARGET1" main_init).1.2) = 2 /\
  (postAircraft (test_runtime false) "TARGET1" main_init).2 = [].
Proof.
  split; [reflexivity|].
  pose proof (marshal_failure_skips_one_broadcast (test_runtime false) "TARGET1"
                (sample_aircraft "AABBCC" "TARGET1") main_init eq_refl)
    as (Hresp & Hlog & Hout & _).
  split; [exact Hresp|]. split; [by rewrite Hlog | by rewrite Hout].
Defined.

(** C8.  For a body that decodes, the record that is marshalled for the
    aircraft event and copied into every alert is the decoded record with
    its timestamp replaced by the clock reading the handler takes; a
    request that differs only in the timestamp it supplies has the same
    outcome in every respect. *)
Theorem ingestion_overwrites_timestamp rt body decoded s :
  decodeAircraft rt body = Some decoded ->
  let aircraft := Aircraft.with_Timestamp (now rt (clock s)) decoded in
  (exists raised,
     (postAircraft rt body s).2 = aircraftUpdate_frames rt aircraft ++ alert_frames rt raised /\
     alerts_of (postAircraft rt body s).1.2 = alerts_of s ++ raised /\
     Forall (fun alert => Alert.Aircraft alert = aircraft /\
                          Aircraft.Timestamp (Alert.Aircraft alert) = now rt (clock s))
            raised) /\
  (forall ts body',
     decodeAircraft rt body' = Some (Aircraft.with_Timestamp ts decoded) ->
     postAircraft rt body' s = postAircraft rt body s).
Proof.
  intros Hdec aircraft. split.
  - destruct (postAircraft_accepted rt body decoded s Hdec) as (s' & -> & _ & Hlog & _).
    eexists. split; [reflexivity|]. split; [exact Hlog|].
    apply Forall_forall. intros alert Hin.
    apply elem_of_evaluate in Hin as (-> & _). done.
  - intros ts body' Hdec'. unfold postAircraft. rewrite Hdec, Hdec'. reflexivity.
Qed.

Lemma ingestion_overwrites_timestamp_witness :
  decodeAircraft (test_runtime true) "TARGET1" = Some (sample_aircraft "AABBCC" "TARGET1") /\
  Aircraft.Timestamp (sample_aircraft "AABBCC" "TARGET1") = UnixNano 7 /\
  (Aircraft.Timestamp ∘ Alert.Aircraft)
    <$> alerts_of (postAircraft (test_runtime true) "TARGET1" main_init).1.2
  = [UnixNano 1000; UnixNano 1000].
Proof.
  split; [reflexivity|]. split; [reflexivity|].
  destruct (ingestion_overwrites_timestamp (test_runtime true) "TARGET1"
              (sample_aircraft "AABBCC" "TARGET1") main_init eq_refl)
    as ((raised & _ & Hlog & Hall) & _).
  reflexivity.
Defined.

Lemma serve_alertCriteria rt r s :
  adds_criterion r = false -> alertCriteria (serve rt r s).1.2 = alertCriteria s.
Proof.
  destruct r as [body| |body]; [|done|done]. intros _. simpl.
  by destruct (postAircraft_log rt body s) as (_ & _ & _ & -> & _).
Qed.

Lemma serve_all_alertCriteria rt reqs : forall s,
  forallb (fun r => negb (adds_criterion r)) reqs = true ->
  alertCriteria (serve_all rt reqs s) = alertCriteria s.
Proof.
  induction reqs as [|r reqs IH]; intros s Hno; [done|].
  simpl in *. apply andb_true_iff in Hno as [Hr Hno].
  rewrite IH by done. apply serve_alertCriteria. by destruct (adds_criterion r).
Qed.

(** C9.  The state [main] starts serving from holds exactly the two
    criteria callsign TARGET1 and icao AABBCC, in that order; as long as
    no [POST /api/alert-criteria] has been served the list stays that,
    and an aircraft with that callsign or that icao gets at least one
    alert. *)
Theorem startup_criteria_seeded :
  alertCriteria main_init
    = [ {| AlertCriteria.ICAO := ""; AlertCriteria.Callsign := "TARGET1" |};
        {| AlertCriteria.ICAO := "AABBCC"; AlertCriteria.Callsign := "" |} ] /\
  forall rt reqs,
    forallb (fun r => negb (adds_criterion r)) reqs = true ->
    let s := serve_all rt reqs main_init in
    alertCriteria s = alertCriteria main_init /\
    forall body decoded,
      decodeAircraft rt body = Some decoded ->
      Aircraft.Callsign decoded = "TARGET1" \/ Aircraft.ICAO decoded = "AABBCC" ->
      length (alerts_of s) < length (alerts_of (postAircraft rt body s).1.2).
Proof.
  split; [reflexivity|]. intros rt reqs Hno s.
  assert (Hcrit : alertCriteria s = alertCriteria main_init)
    by (by apply serve_all_alertCriteria).
  split; [exact Hcrit|]. intros body decoded Hdec Hid.
  destruct (postAircraft_accepted rt body decoded s Hdec) as (s' & -> & _ & Hlog & _).
  simpl. rewrite Hlog, length_app, length_evaluate, Hcrit.
  set (aircraft := Aircraft.with_Timestamp _ decoded).
  cut (exists c, c ∈ filter (Matches aircraft) (alertCriteria main_init)).
  { intros [c Hc]. destruct (filter _ _); [by apply elem_of_nil in Hc|simpl; lia]. }
  destruct Hid as [Hcs|Hicao].
  - exists {| AlertCriteria.ICAO := ""; AlertCriteria.Callsign := "TARGET1" |}.
    apply list_elem_of_filter. split; [|set_solver]. right. simpl. by rewrite Hcs.
  - exists {| AlertCriteria.ICAO := "AABBCC"; AlertCriteria.Callsign := "" |}.
    apply list_elem_of_filter. split; [|set_solver]. left. simpl. by rewrite Hicao.
Qed.

Lemma startup_criteria_seeded_witness :
  forallb (fun r => negb (adds_criterion r)) [GET_alerts; POST_aircraft "X"] = true /\
  decodeAircraft (test_runtime true) "Y" = Some (sample_aircraft "AABBCC" "Y") /\
  Aircraft.ICAO (sample_aircraft "AABBCC" "Y") = "AABBCC" /\
  let s := serve_all (test_runtime true) [GET_alerts; POST_aircraft "X"] main_init in
  length (alerts_of s) < length (alerts_of (postAircraft (test_runtime true) "Y" s).1.2).
Proof.
  split; [reflexivity|]. split; [reflexivity|]. split; [reflexivity|].
  destruct startup_criteria_seeded as [_ Hrun].
  destruct (Hrun (test_runtime true) [GET_alerts; POST_aircraft "X"] eq_refl) as [_ Hpost].
  apply (Hpost "Y" (sample_aircraft "AABBCC" "Y") eq_refl). right. reflexivity.
Defined.

(** C10.  A criterion whose icao and callsign are both empty is accepted:
    it is appended to the criteria list and echoed with status 201.  Its
    test is false for every aircraft, and no alert that an ingestion
    appends carries it. *)
Theorem empty_criterion_accepted_never_matches rt body s :
  decodeCriteria rt body = Some {| AlertCriteria.ICAO := ""; AlertCriteria.Callsign := "" |} ->
  let empty := {| AlertCriteria.ICAO := ""; AlertCriteria.Callsign := "" |} in
  postAlertCriteria rt body s
    = (JSON 201 (JCriterion empty),
       {| alertCriteria := alertCriteria s ++ [empty];
          triggeredAlerts := triggeredAlerts s; mem := mem s; clock := clock s |},
       []) /\
  (forall aircraft, criterion_matches empty aircraft = false) /\
  (forall s0 body0, exists raised,
     alerts_of (postAircraft rt body0 s0).1.2 = alerts_of s0 ++ raised /\
     Forall (fun alert => Alert.Criteria alert ≠ empty) raised).
Proof.
  intros Hdec empty. split_and!.
  - unfold postAlertCriteria. by rewrite Hdec.
  - done.
  - intros s0 body0.
    destruct (postAircraft_log rt body0 s0) as (raised & Hlog & Hall & _).
    exists raised. split; [done|].
    eapply Forall_impl; [exact Hall|]. intros alert [_ Hm] Heq.
    rewrite Heq in Hm. destruct Hm as [[Hne _]|[Hne _]]; by apply Hne.
Qed.

Lemma empty_criterion_accepted_never_matches_witness :
  decodeCriteria (test_runtime true) "{}" = Some AlertCriteria.zero /\
  (postAlertCriteria (test_runtime true) "{}" main_init).1.1
    = JSON 201 (JCriterion AlertCriteria.zero) /\
  length (alertCriteria (postAlertCriteria (test_runtime true) "{}" main_init).1.2) = 3.
Proof.
  split; [reflexivity|].
  destruct (empty_criterion_accepted_never_matches (test_runtime true) "{}" main_init eq_refl)
    as (Hpost & _).
  rewrite Hpost. split; reflexivity.
Defined.

(** ** The alert log and the copies handed out *)

Lemma log_allocated_serve rt r s :
  log_allocated s -> log_allocated (serve rt r s).1.2.
Proof.
  intros Hwf. destruct r as [body| |body]; cbn [serve].
  - destruct (postAircraft_log rt body s) as (_ & _ & _ & _ & Hkeep). by apply Hkeep.
  - destruct (getAlerts_copy s Hwf) as (sl & s1 & -> & _ & _ & Hlog & _ & _ & Hnext).
    unfold log_allocated in *. simpl. rewrite Hlog, Hnext. lia.
  - unfold postAlertCriteria. by destruct (decodeCriteria rt body).
Qed.

Lemma log_prefix_serve rt r s :
  log_allocated s -> alerts_of s `prefix_of` alerts_of (serve rt r s).1.2.
Proof.
  intros Hwf. destruct r as [body| |body]; cbn [serve].
  - destruct (postAircraft_log rt body s) as (raised & -> & _). by exists raised.
  - destruct (getAlerts_copy s Hwf) as (sl & s1 & -> & _ & Hlog & _). simpl.
    by rewrite Hlog.
  - unfold postAlertCriteria. by destruct (decodeCriteria rt body).
Qed.

Lemma serve_all_app rt earlier later s :
  serve_all rt (earlier ++ later) s = serve_all rt later (serve_all rt earlier s).
Proof. revert s. induction earlier as [|r rs IH]; intros s; simpl; [done|apply IH]. Qed.

Lemma serve_all_log rt reqs : forall s,
  log_allocated s ->
  log_allocated (serve_all rt reqs s) /\
  alerts_of s `prefix_of` alerts_of (serve_all rt reqs s).
Proof.
  induction reqs as [|r reqs IH]; intros s Hwf; simpl; [done|].
  destruct (IH _ (log_allocated_serve rt r s Hwf)) as [Hwf' Hpre].
  split; [done|]. etrans; [by apply (log_prefix_serve rt r)|done].
Qed.

Lemma log_allocated_main_init : log_allocated main_init.
Proof. unfold log_allocated. simpl. lia. Qed.

(** Assignments through one slice leave every other block alone. *)
Lemma mutate_other sl t writes : forall m m2,
  ptr t ≠ ptr sl ->
  mutate sl writes m = Ok m2 ->
  view Alert.zero m2 t = view Alert.zero m t /\ next m2 = next m.
Proof.
  induction writes as [|[i x] writes IH]; intros m m2 Hne Hmut; simpl in Hmut.
  - by injection Hmut as <-.
  - destruct (set_index sl i x m) as [m1|] eqn:Hset; [|done]. simpl in Hmut.
    destruct (IH m1 m2 Hne Hmut) as [-> ->].
    split; [by eapply view_set_index_other|].
    unfold set_index in Hset. case_decide; [|done]. by injection Hset as <-.
Qed.



(** * The broadcast hub *)

Section HubFacts.
Implicit Types (h : Hub) (client : nat) (cl : Client) (message : string).

Lemma fold_deliver_panic message order p :
  foldl (fun r client => rbind r (fun h' => deliver message h' client)) (Panic p) order
  = Panic p.
Proof. induction order as [|c order IH]; [done|]. simpl. apply IH. Qed.

Lemma broadcast_in_cons client order message h :
  broadcast_in (client :: order) message h
  = rbind (deliver message h client) (broadcast_in order message).
Proof.
  unfold broadcast_in. simpl.
  destruct (deliver message h client) as [h1|p]; simpl; [done|].
  apply fold_deliver_panic.
Qed.

Lemma deliver_room message h client cl :
  objects h !! client = Some cl ->
  closed (Send cl) = false ->
  length (buf (Send cl)) < capacity (Send cl) ->
  deliver message h client
  = Ok {| clients := clients h;
          objects := <[client := enqueued message cl]> (objects h) |}.
Proof.
  intros Hobj Hopen Hroom. unfold deliver, try_send.
  rewrite Hobj, Hopen. by rewrite decide_True.
Qed.

Lemma drop_client_open h client cl :
  objects h !! client = Some cl ->
  closed (Send cl) = false ->
  drop_client client h
  = Ok {| clients := delete client (clients h);
          objects := <[client := shut cl]> (objects h) |}.
Proof.
  intros Hobj Hopen. unfold drop_client, close. by rewrite Hobj, Hopen.
Qed.

Lemma deliver_full message h client cl :
  objects h !! client = Some cl ->
  closed (Send cl) = false ->
  ~ length (buf (Send cl)) < capacity (Send cl) ->
  deliver message h client
  = Ok {| clients := delete client (clients h);
          objects := <[client := shut cl]> (objects h) |}.
Proof.
  intros Hobj Hopen Hfull. unfold deliver, try_send.
  rewrite Hobj, Hopen. rewrite decide_False by done. simpl.
  by apply drop_client_open.
Qed.

(** Visiting the clients of [order], each once, all with open queues:
    the broadcast completes; a visited client with room has the
    message enqueued, a visited client without is dropped and shut;
    nothing else changes. *)
Lemma broadcast_in_visits message order : forall h,
  NoDup order ->
  (forall client, client ∈ order -> queue_open h client) ->
  exists h',
    broadcast_in order message h = Ok h' /\
    length (objects h') = length (objects h) /\
    (forall client, client ∉ order ->
       clients h' !! client = clients h !! client /\
       objects h' !! client = objects h !! client) /\
    (forall client cl, client ∈ order -> objects h !! client = Some cl ->
       if decide (length (buf (Send cl)) < capacity (Send cl))
       then clients h' !! client = clients h !! client /\
            objects h' !! client = Some (enqueued message cl)
       else clients h' !! client = None /\
            objects h' !! client = Some (shut cl)).
Proof.
  induction order as [|c order IH]; intros h Hnd Hopen.
  - exists h. split_and!; try done. intros client cl Hin. by apply elem_of_nil in Hin.
  - apply NoDup_cons in Hnd as [Hc Hnd].
    destruct (Hopen c) as (cl & Hobj & Hcl); [by apply elem_of_cons; left|].
    assert (Hlt : c < length (objects h)) by (by eapply lookup_lt_Some).
    rewrite broadcast_in_cons.
    set (h1 := if decide (length (buf (Send cl)) < capacity (Send cl))
               then {| clients := clients h;
                       objects := <[c := enqueued message cl]> (objects h) |}
               else {| clients := delete c (clients h);
                       objects := <[c := shut cl]> (objects h) |}).
    assert (Hstep : deliver message h c = Ok h1).
    { unfold h1. case_decide; [by apply deliver_room|by apply deliver_full]. }
    assert (Hlen1 : length (objects h1) = length (objects h)).
    { unfold h1. case_decide; simpl; apply length_insert. }
    assert (Hother : forall c', c' ≠ c ->
              clients h1 !! c' = clients h !! c' /\ objects h1 !! c' = objects h !! c').
    { intros c' Hne. unfold h1. case_decide; simpl.
      - by rewrite list_lookup_insert_ne.
      - by rewrite lookup_delete_ne, list_lookup_insert_ne. }
    rewrite Hstep. simpl.
    destruct (IH h1 Hnd) as (h' & Hrun & Hlen & Hout & Hin).
    { intros c' Hc'. destruct (Hother c') as [_ Hobj']; [by intros ->|].
      destruct (Hopen c') as (cl' & ? & ?); [by apply elem_of_cons; right|].
      exists cl'. by rewrite Hobj'. }
    exists h'. split_and!; [done|congruence| |].
    + intros c' Hc'. apply not_elem_of_cons in Hc' as [Hne Hc'].
      destruct (Hout c' Hc') as [-> ->]. by apply Hother.
    + intros c' cl' Hc' Hobj'. apply elem_of_cons in Hc' as [->|Hc'].
      * assert (cl' = cl) as -> by congruence.
        destruct (Hout c Hc) as [-> ->]. unfold h1.
        case_decide; simpl; rewrite ?lookup_delete_eq, list_lookup_insert_eq; done.
      * assert (c' ≠ c) as Hne by (by intros ->).
        destruct (Hother c' Hne) as [Hcl1 Hobj1].
        specialize (Hin c' cl' Hc'). rewrite Hobj1 in Hin. specialize (Hin Hobj').
        destruct (decide (length (buf (Send cl')) < capacity (Send cl')));
          [rewrite <- Hcl1|]; done.
Qed.

Lemma elem_of_keys (m : gmap nat bool) client :
  client ∈ (map_to_list m).*1 <-> is_Some (m !! client).
Proof.
  rewrite list_elem_of_fmap. split.
  - intros ([k b] & -> & Hin). apply elem_of_map_to_list in Hin. by exists b.
  - intros [b Hb]. exists (client, b). split; [done|]. by apply elem_of_map_to_list.
Qed.

(** The broadcast case of [Hub.run], whatever order the map iteration
    takes. *)
Lemma broadcast_in_registered message order h :
  Hub_ok h ->
  order ≡ₚ (map_to_list (clients h)).*1 ->
  exists h',
    broadcast_in order message h = Ok h' /\
    length (objects h') = length (objects h) /\
    (forall client, clients h !! client = None ->
       clients h' !! client = None /\
       objects h' !! client = objects h !! client) /\
    (forall client cl, is_Some (clients h !! client) -> objects h !! client = Some cl ->
       if decide (length (buf (Send cl)) < capacity (Send cl))
       then clients h' !! client = clients h !! client /\
            objects h' !! client = Some (enqueued message cl)
       else clients h' !! client = None /\
            objects h' !! client = Some (shut cl)).
Proof.
  intros [Hmem _] Hperm.
  assert (Hin : forall client, client ∈ order <-> is_Some (clients h !! client)).
  { intros client. rewrite Hperm. apply elem_of_keys. }
  destruct (broadcast_in_visits message order h) as (h' & Hrun & Hlen & Hout & Hvis).
  { rewrite Hperm. apply NoDup_fst_map_to_list. }
  { intros client Hc. apply Hmem, Hin, Hc. }
  exists h'. split_and!; [done|done| |].
  - intros client Hnone. destruct (Hout client) as [-> ->]; [|done].
    rewrite Hin, Hnone. by intros [? ?].
  - intros client cl Hreg Hobj. apply Hvis; [by apply Hin|done].
Qed.

Lemma broadcast_order_irrelevant message order h :
  Hub_ok h ->
  order ≡ₚ (map_to_list (clients h)).*1 ->
  broadcast_in order message h = on_broadcast message h.
Proof.
  intros Hok Hperm. unfold on_broadcast.
  destruct (broadcast_in_registered message order h Hok Hperm)
    as (h1 & -> & Hlen1 & Hout1 & Hin1).
  destruct (broadcast_in_registered message _ h Hok (reflexivity _))
    as (h2 & -> & Hlen2 & Hout2 & Hin2).
  f_equal. destruct h1 as [cs1 os1], h2 as [cs2 os2]. simpl in *.
  assert (Hpoint : forall client,
            cs1 !! client = cs2 !! client /\ os1 !! client = os2 !! client).
  { intros client. destruct (clients h !! client) as [b|] eqn:Hreg.
    - destruct (members_open h Hok client) as (cl & Hobj & _); [by exists b|].
      specialize (Hin1 client cl (ltac:(by exists b)) Hobj).
      specialize (Hin2 client cl (ltac:(by exists b)) Hobj).
      destruct (decide (length (buf (Send cl)) < capacity (Send cl)));
        destruct Hin1 as [-> ->], Hin2 as [-> ->]; done.
    - destruct (Hout1 client Hreg) as [-> ->], (Hout2 client Hreg) as [-> ->]. done. }
  f_equal.
  - apply map_eq. intros client. apply Hpoint.
  - apply list_eq. intros client. apply Hpoint.
Qed.

Lemma Hub_ok_newHub : Hub_ok newHub.
Proof.
  split.
  - intros client [b Hb]. simpl in Hb. by rewrite lookup_empty in Hb.
  - intros client cl Hcl. simpl in Hcl. by rewrite lookup_nil in Hcl.
Qed.

Lemma Hub_ok_broadcast message h :
  Hub_ok h -> exists h', on_broadcast message h = Ok h' /\ Hub_ok h'.
Proof.
  intros Hok.
  destruct (broadcast_in_registered message _ h Hok (reflexivity _))
    as (h' & Hrun & Hlen & Hout & Hin).
  exists h'. split; [done|]. split.
  - intros client [b' Hb'].
    destruct (clients h !! client) as [b|] eqn:Hreg.
    + destruct (members_open h Hok client) as (cl & Hobj & Hopen); [by exists b|].
      specialize (Hin client cl (ltac:(by exists b)) Hobj).
      destruct (decide (length (buf (Send cl)) < capacity (Send cl)));
        destruct Hin as [Hc Ho]; [|congruence].
      by exists (enqueued message cl).
    + destruct (Hout client Hreg) as [Hc _]. congruence.
  - intros client cl' Hobj'.
    destruct (clients h !! client) as [b|] eqn:Hreg.
    + destruct (members_open h Hok client) as (cl & Hobj & Hopen); [by exists b|].
      destruct (queues_bounded h Hok client cl Hobj) as [Hcap Hbuf].
      specialize (Hin client cl (ltac:(by exists b)) Hobj).
      destruct (decide (length (buf (Send cl)) < capacity (Send cl)));
        destruct Hin as [_ Ho]; rewrite Ho in Hobj'; injection Hobj' as <-; simpl.
      * rewrite length_app. simpl. lia.
      * done.
    + destruct (Hout client Hreg) as [_ Ho]. rewrite Ho in Hobj'.
      by apply (queues_bounded h Hok client).
Qed.

(** An admissible step from a good state does not panic and ends in a
    good state. *)
Lemma step_ok a h :
  Hub_ok h -> admissible a h -> exists h', step a h = Ok h' /\ Hub_ok h'.
Proof.
  intros Hok Hadm. destruct a as [id|[client|client|message]|client]; simpl in *.
  - eexists. split; [reflexivity|]. split; simpl.
    + intros client Hreg. destruct (members_open h Hok client Hreg) as (cl & Hobj & ?).
      exists cl. split; [|done]. simpl.
      rewrite lookup_app_l; [done|by eapply lookup_lt_Some].
    + intros client cl Hobj. apply lookup_app_Some in Hobj as [Hobj|[_ Hobj]].
      * by apply (queues_bounded h Hok client).
      * apply list_lookup_singleton_Some in Hobj as [_ <-]. simpl. lia.
  - destruct Hadm as (cl & Hobj & Hopen). unfold on_register. rewrite Hobj.
    eexists. split; [reflexivity|]. split; simpl.
    + intros c [b Hb]. destruct (decide (c = client)) as [->|Hne].
      * by exists cl.
      * rewrite lookup_insert_ne in Hb by done. apply (members_open h Hok). by exists b.
    + apply (queues_bounded h Hok).
  - unfold on_unregister. destruct (clients h !! client) as [b|] eqn:Hreg;
      [|by exists h].
    destruct (members_open h Hok client) as (cl & Hobj & Hopen); [by exists b|].
    rewrite (drop_client_open h client cl) by done.
    eexists. split; [reflexivity|]. split; simpl.
    + intros c [b' Hb']. destruct (decide (c = client)) as [->|Hne].
      * by rewrite lookup_delete_eq in Hb'.
      * rewrite lookup_delete_ne in Hb' by done.
        destruct (members_open h Hok c) as (cl' & ? & ?); [by exists b'|].
        exists cl'. simpl. by rewrite list_lookup_insert_ne.
    + intros c cl' Hobj'. destruct (decide (c = client)) as [->|Hne].
      * rewrite list_lookup_insert_eq in Hobj' by (by eapply lookup_lt_Some).
        injection Hobj' as <-. simpl. by apply (queues_bounded h Hok client).
      * rewrite list_lookup_insert_ne in Hobj' by done.
        by apply (queues_bounded h Hok c).
  - by apply Hub_ok_broadcast.
  - destruct Hadm as [cl Hobj]. unfold on_receive. rewrite Hobj.
    destruct (queues_bounded h Hok client cl Hobj) as [Hcap Hbuf].
    unfold try_recv. destruct (buf (Send cl)) as [|m rest] eqn:Hq.
    + destruct (closed (Send cl)) eqn:Hcl; [|by exists h].
      eexists. split; [reflexivity|].
      replace (<[client := _]> (objects h)) with (objects h); [by destruct h|].
      symmetry. apply list_insert_id. rewrite Hobj. by destruct cl.
    + eexists. split; [reflexivity|]. split; simpl.
      * intros c Hreg. destruct (members_open h Hok c Hreg) as (cl' & Hobj' & Hopen').
        destruct (decide (c = client)) as [->|Hne].
        -- eexists. simpl. rewrite list_lookup_insert_eq by (by eapply lookup_lt_Some).
           split; [reflexivity|]. simpl. congruence.
        -- exists cl'. simpl. by rewrite list_lookup_insert_ne.
      * intros c cl' Hobj'. destruct (decide (c = client)) as [->|Hne].
        -- rewrite list_lookup_insert_eq in Hobj' by (by eapply lookup_lt_Some).
           injection Hobj' as <-. simpl in *. lia.
        -- rewrite list_lookup_insert_ne in Hobj' by done.
           by apply (queues_bounded h Hok c).
Qed.

Lemma run_ok acts : forall h,
  Hub_ok h -> admissible_run acts h -> exists h', run acts h = Ok h' /\ Hub_ok h'.
Proof.
  induction acts as [|a acts IH]; intros h Hok Hadm; simpl in *.
  - by exists h.
  - destruct Hadm as [Ha Hrest].
    destruct (step_ok a h Hok Ha) as (h1 & Hstep & Hok1).
    rewrite Hstep in *. simpl. by apply IH.
Qed.

(** A registered client whose queue is full is dropped and shut by the
    broadcast. *)
Lemma full_queue_dropped_by_broadcast message h :
  Hub_ok h ->
  forall client cl,
    is_Some (clients h !! client) -> objects h !! client = Some cl ->
    length (buf (Send cl)) = 256 ->
    exists h1,
      on_broadcast message h = Ok h1 /\
      clients h1 !! client = None /\
      objects h1 !! client = Some (shut cl).
Proof.
  intros Hok client cl Hreg Hobj Hfull.
  destruct (queues_bounded h Hok client cl Hobj) as [Hcap _].
  destruct (broadcast_in_registered message _ h Hok (reflexivity _))
    as (h1 & Hrun & _ & _ & Hin).
  exists h1. split; [done|].
  specialize (Hin client cl Hreg Hobj).
  rewrite decide_False in Hin by lia. done.
Qed.

End HubFacts.

(** * Claims about the hub *)

Lemma Hub_ok_crowded_hub : Hub_ok crowded_hub.
Proof.
  split.
  - intros client [b Hb]. simpl in Hb.
    apply lookup_insert_Some in Hb as [[<- _]|[_ Hb]].
    + eexists. split; reflexivity.
    + apply lookup_singleton_Some in Hb as [<- _]. eexists. split; reflexivity.
  - intros [|[|client]] cl Hcl; [| |done]; injection Hcl as <-;
      cbn [Send buf capacity make_chan]; rewrite ?length_replicate; simpl; lia.
Qed.

(** C2.  A broadcast served in a state where every registered client has
    an open queue of capacity 256 (the state the hub is in between any
    two requests) always completes, in whatever order the client map is
    iterated.  A registered client whose queue holds fewer than 256
    messages stays registered and has the message at the end of its
    queue; one whose queue holds 256 is removed from the client set and
    its queue is closed, with its contents untouched.  Both hold of each
    client whatever the state of the others. *)
Theorem broadcast_isolates_full_queue message order h :
  Hub_ok h ->
  order ≡ₚ (map_to_list (clients h)).*1 ->
  exists h',
    broadcast_in order message h = Ok h' /\
    Hub_step (Broadcast message) h = Ok h' /\
    Hub_ok h' /\
    forall client cl,
      is_Some (clients h !! client) -> objects h !! client = Some cl ->
      capacity (Send cl) = 256 /\
      (length (buf (Send cl)) < 256 ->
         clients h' !! client = clients h !! client /\
         objects h' !! client
           = Some {| ID := ID cl;
                     Send := {| buf := buf (Send cl) ++ [message];
                                capacity := 256; closed := false |} |}) /\
      (length (buf (Send cl)) = 256 ->
         clients h' !! client = None /\
         objects h' !! client
           = Some {| ID := ID cl;
                     Send := {| buf := buf (Send cl);
                                capacity := 256; closed := true |} |}).
Proof.
  intros Hok Hperm.
  destruct (Hub_ok_broadcast message h Hok) as (h' & Hrun & Hok').
  exists h'. split; [by rewrite broadcast_order_irrelevant|].
  split; [done|]. split; [done|].
  intros client cl Hreg Hobj.
  destruct (queues_bounded h Hok client cl Hobj) as [Hcap Hbuf].
  destruct (broadcast_in_registered message _ h Hok (reflexivity _))
    as (h2 & Hrun2 & _ & _ & Hin).
  assert (h2 = h') as -> by (unfold on_broadcast in Hrun; congruence).
  specialize (Hin client cl Hreg Hobj). rewrite Hcap in Hin.
  split; [done|]. unfold enqueued, shut in Hin. rewrite Hcap in Hin.
  split; intros Hlen.
  - by rewrite decide_True in Hin.
  - rewrite decide_False in Hin by lia. done.
Qed.

Lemma broadcast_isolates_full_queue_witness :
  Hub_ok crowded_hub /\
  (map_to_list (clients crowded_hub)).*1 ≡ₚ (map_to_list (clients crowded_hub)).*1 /\
  exists h',
    Hub_step (Broadcast "alert") crowded_hub = Ok h' /\
    clients h' = {[ 1 := true ]} /\
    (closed ∘ Send) <$> objects h' = [true; false] /\
    (length ∘ buf ∘ Send) <$> objects h' = [256; 1].
Proof.
  split; [exact Hub_ok_crowded_hub|]. split; [reflexivity|].
  destruct (broadcast_isolates_full_queue "alert" _ crowded_hub
              Hub_ok_crowded_hub (reflexivity _)) as (h' & _ & Hstep & _ & _).
  exists h'. split; [exact Hstep|].
  assert (Hrun : Hub_step (Broadcast "alert") crowded_hub
                 = Ok {| clients := {[ 1 := true ]};
                         objects := [ shut (MkClient "10.0.0.1:40000"
                                              (MkChan (replicate 256 "tick") 256 false));
                                      enqueued "alert"
                                        (MkClient "10.0.0.2:40000" (make_chan 256)) ] |})
    by (vm_compute; reflexivity).
  rewrite Hrun in Hstep. injection Hstep as <-.
  split; [reflexivity|]. split; vm_compute; reflexivity.
Defined.

Lemma filter_none {A} (P : A -> Prop) `{forall x, Decision (P x)} (l : list A) :
  (forall x, x ∈ l -> ~ P x) -> filter P l = [].
Proof.
  induction l as [|x l IH]; intros Hno; [done|].
  rewrite filter_cons_False by (apply Hno, elem_of_cons; by left).
  apply IH. intros y Hy. apply Hno, elem_of_cons. by right.
Qed.

(** A client that is in the map is in it once. *)
Lemma memberships_registered h client b :
  clients h !! client = Some b -> memberships h client = 1.
Proof.
  intros Hreg. unfold memberships.
  rewrite <- (insert_delete_id (clients h) client b Hreg).
  rewrite map_to_list_insert by apply lookup_delete_eq.
  rewrite filter_cons_True by done. simpl. f_equal.
  rewrite filter_none; [done|].
  intros [k v] Hin Hk. simpl in Hk. subst k.
  apply elem_of_map_to_list in Hin. by rewrite lookup_delete_eq in Hin.
Qed.

(** A client that is not in the map has no membership. *)
Lemma memberships_unregistered h client :
  clients h !! client = None -> memberships h client = 0.
Proof.
  intros Hout. unfold memberships. rewrite filter_none; [done|].
  intros [k v] Hin Hk. simpl in Hk. subst k.
  apply elem_of_map_to_list in Hin. congruence.
Qed.

(** C3, as the code has it.  Registering a client that is already
    registered changes nothing: the second request leaves the hub in the
    state the first one produced, in which the client has one
    membership.  When the client's queue is open, a single unregister
    request then removes it: no membership is left. *)
Theorem register_twice_idempotent client h h1 :
  on_register client h = Ok h1 ->
  on_register client h1 = Ok h1 /\
  memberships h1 client = 1 /\
  (queue_open h client ->
   exists h2,
     Hub_step (Unregister client) h1 = Ok h2 /\
     clients h2 !! client = None /\
     memberships h2 client = 0).
Proof.
  unfold on_register. intros Hreg.
  destruct (objects h !! client) as [cl|] eqn:Hobj; [|done].
  injection Hreg as <-. simpl. rewrite Hobj. split_and!.
  - by rewrite insert_insert_eq.
  - apply (memberships_registered _ client true). simpl. apply lookup_insert_eq.
  - intros (cl' & Hobj' & Hopen). assert (cl' = cl) as -> by congruence.
    unfold on_unregister. cbn [clients]. rewrite lookup_insert_eq.
    rewrite (drop_client_open _ client cl) by done.
    eexists. split; [reflexivity|]. cbn [clients].
    assert (Hgone : delete client (<[client:=true]> (clients h)) !! client = None)
      by apply lookup_delete_eq.
    split; [exact Hgone|]. by apply memberships_unregistered.
Qed.

Lemma register_twice_idempotent_witness :
  let h0 := (new_Client "10.0.0.1:40000" newHub).2 in
  let h1 := {| clients := {[ 0 := true ]}; objects := objects h0 |} in
  on_register 0 h0 = Ok h1 /\ queue_open h0 0 /\
  on_register 0 h1 = Ok h1 /\ memberships h1 0 = 1 /\
  exists h2,
    Hub_step (Unregister 0) h1 = Ok h2 /\
    clients h2 !! 0 = None /\ memberships h2 0 = 0.
Proof.
  intros h0 h1.
  assert (Hreg : on_register 0 h0 = Ok h1) by reflexivity.
  assert (Hopen : queue_open h0 0) by (eexists; split; reflexivity).
  destruct (register_twice_idempotent 0 h0 h1 Hreg) as (Hagain & Hone & Hun).
  split; [exact Hreg|]. split; [exact Hopen|].
  split; [exact Hagain|]. split; [exact Hone|]. exact (Hun Hopen).
Defined.

(** C3 as stated fails: after two register requests for one client the
    client set holds it once, not twice, and one unregister request
    removes it altogether. *)
Lemma register_twice_single_membership :
  let h0 := (new_Client "10.0.0.1:40000" newHub).2 in
  exists h2 h3,
    run [Serve (Register 0); Serve (Register 0)] h0 = Ok h2 /\
    memberships h2 0 = 1 /\
    memberships h2 0 <> 2 /\
    Hub_step (Unregister 0) h2 = Ok h3 /\
    memberships h3 0 = 0.
Proof.
  simpl. eexists _, _. split; [reflexivity|].
  split; [by vm_compute|]. split; [by vm_compute|].
  split; [reflexivity|]. by vm_compute.
Qed.

(** C4 as stated fails for a client that is registered again after its
    queue was closed: the second unregister finds it in the set and
    closes the closed queue, which is a run-time panic. *)
Lemma reregistered_client_closed_twice :
  run [ Connect "10.0.0.1:40000";
        Serve (Register 0); Serve (Unregister 0);
        Serve (Register 0); Serve (Unregister 0) ] newHub
  = Panic CloseOfClosedChannel.
Proof. by vm_compute. Qed.

(** C4, as the code has it.  Closing a closed queue is a run-time panic,
    so a queue is closed at most once exactly when no run reaches that
    panic.  From a state where registered clients have open queues, every
    sequence of hub requests (with endpoints connecting and receiving in
    between) in which no client is registered while its queue is closed
    runs to the end without a panic.  An unregister request for a client
    that is not in the set leaves the hub as it is; in particular, once a
    broadcast has removed a client with a full queue and closed that
    queue, an unregister request for that client changes nothing. *)
Theorem queue_closed_at_most_once acts h :
  Hub_ok h ->
  admissible_run acts h ->
  (exists h', run acts h = Ok h' /\ Hub_ok h') /\
  (forall client, clients h !! client = None -> Hub_step (Unregister client) h = Ok h) /\
  (forall message client cl,
     is_Some (clients h !! client) -> objects h !! client = Some cl ->
     length (buf (Send cl)) = 256 ->
     exists h1,
       Hub_step (Broadcast message) h = Ok h1 /\
       clients h1 !! client = None /\
       (closed ∘ Send) <$> objects h1 !! client = Some true /\
       Hub_step (Unregister client) h1 = Ok h1).
Proof.
  intros Hok Hadm. split_and!.
  - by apply run_ok.
  - intros client Hnone. simpl. unfold on_unregister. by rewrite Hnone.
  - intros message client cl Hreg Hobj Hfull.
    destruct (full_queue_dropped_by_broadcast message h Hok client cl Hreg Hobj Hfull)
      as (h1 & Hrun & Hgone & Hshut).
    exists h1. split_and!; [done|done|by rewrite Hshut|].
    simpl. unfold on_unregister. by rewrite Hgone.
Qed.

Lemma queue_closed_at_most_once_witness :
  let acts := [ Connect "10.0.0.1:40000"; Serve (Register 0); Serve (Broadcast "tick");
                Receive 0; Serve (Unregister 0); Serve (Unregister 0) ] in
  Hub_ok newHub /\ admissible_run acts newHub /\
  exists h', run acts newHub = Ok h' /\ Hub_ok h'.
Proof.
  intros acts.
  assert (Hadm : admissible_run acts newHub).
  { cbn. repeat split; try (eexists; split; reflexivity). }
  split; [exact Hub_ok_newHub|]. split; [exact Hadm|].
  exact (proj1 (queue_closed_at_most_once acts newHub Hub_ok_newHub Hadm)).
Defined.

(** * Further properties of the HTTP handlers *)

Lemma serve_accepted_criterion rt r s :
  alertCriteria (serve rt r s).1.2
  = alertCriteria s ++ option_list (accepted_criterion rt r).
Proof.
  destruct r as [body| |body]; cbn [serve accepted_criterion].
  - destruct (postAircraft_log rt body s) as (_ & _ & _ & -> & _).
    by rewrite app_nil_r.
  - simpl. by rewrite app_nil_r.
  - unfold postAlertCriteria. destruct (decodeCriteria rt body); simpl; [done|].
    by rewrite app_nil_r.
Qed.

(** X1.  After any history of requests the criteria list is the list it
    started from followed by the criteria of the accepted
    [POST /api/alert-criteria] requests, in the order they were served:
    nothing is validated, merged, reordered or removed, and no other
    request touches the list. *)
Theorem criteria_list_is_history rt reqs s :
  alertCriteria (serve_all rt reqs s)
  = alertCriteria s ++ omap (accepted_criterion rt) reqs.
Proof.
  revert s. induction reqs as [|r reqs IH]; intros s; simpl.
  - by rewrite app_nil_r.
  - rewrite IH, serve_accepted_criterion, <- app_assoc. f_equal.
    by destruct (accepted_criterion rt r).
Qed.

Lemma evaluate_snoc rt aircraft n criteria criterion :
  evaluate rt aircraft n (criteria ++ [criterion])
  = evaluate rt aircraft n criteria ++
    if decide (Matches aircraft criterion)
    then [make_alert aircraft criterion
            (now rt (n + length (evaluate rt aircraft n criteria)))]
    else [].
Proof.
  rewrite length_evaluate. unfold evaluate.
  rewrite filter_app, imap_app. f_equal.
  destruct (decide (Matches aircraft criterion)) as [Hm|Hm].
  - rewrite filter_cons_True by done. simpl. by rewrite Nat.add_0_r.
  - by rewrite filter_cons_False.
Qed.

(** X2.  Adding a criterion changes what a later ingestion does by
    exactly one alert: the log an accepted [POST /api/aircraft] leaves
    after the criterion was added is the log it would have left without
    it, followed by one alert for the new criterion when that matches
    the aircraft, and by nothing when it does not. *)
Theorem added_criterion_takes_effect rt cbody criterion abody decoded s :
  decodeCriteria rt cbody = Some criterion ->
  decodeAircraft rt abody = Some decoded ->
  let aircraft := Aircraft.with_Timestamp (now rt (clock s)) decoded in
  let before := alerts_of (postAircraft rt abody s).1.2 in
  let after := alerts_of (postAircraft rt abody (postAlertCriteria rt cbody s).1.2).1.2 in
  after = before ++
          if decide (Matches aircraft criterion)
          then [make_alert aircraft criterion
                  (now rt (S (clock s) + (length before - length (alerts_of s))))]
          else [].
Proof.
  intros Hc Ha aircraft before after. unfold before, after.
  assert (Hadd : (postAlertCriteria rt cbody s).1.2
                 = {| alertCriteria := alertCriteria s ++ [criterion];
                      triggeredAlerts := triggeredAlerts s; mem := mem s;
                      clock := clock s |}).
  { unfold postAlertCriteria. by rewrite Hc. }
  rewrite Hadd. clear Hadd.
  set (sc := MkServer (alertCriteria s ++ [criterion]) (triggeredAlerts s) (mem s) (clock s)).
  destruct (postAircraft_accepted rt abody decoded s Ha) as (s1 & -> & _ & Hlog1 & _).
  destruct (postAircraft_accepted rt abody decoded sc Ha) as (s2 & -> & _ & Hlog2 & _).
  cbn [fst snd] in *. rewrite Hlog2, Hlog1.
  change (alerts_of sc) with (alerts_of s).
  change (clock sc) with (clock s).
  change (alertCriteria sc) with (alertCriteria s ++ [criterion]). fold aircraft.
  rewrite evaluate_snoc, <- app_assoc. do 2 f_equal.
  rewrite length_app. replace (_ + _ - _) with
    (length (evaluate rt aircraft (S (clock s)) (alertCriteria s))) by lia.
  done.
Qed.

Lemma added_criterion_takes_effect_witness :
  let rt := test_runtime true in
  decodeCriteria rt "DDEEFF" = Some {| AlertCriteria.ICAO := "DDEEFF";
                                       AlertCriteria.Callsign := "" |} /\
  decodeAircraft rt "NORMALFLT" = Some (sample_aircraft "AABBCC" "NORMALFLT") /\
  length (alerts_of (postAircraft rt "NORMALFLT"
                       (postAlertCriteria rt "DDEEFF" main_init).1.2).1.2)
  = length (alerts_of (postAircraft rt "NORMALFLT" main_init).1.2).
Proof.
  intros rt. split; [reflexivity|]. split; [reflexivity|].
  rewrite (added_criterion_takes_effect rt "DDEEFF" _ "NORMALFLT" _ main_init
             eq_refl eq_refl).
  rewrite decide_False; [by rewrite app_nil_r|].
  intros [[_ H]|[H _]]; [discriminate H|by apply H].
Defined.

Lemma evaluate_Timestamp rt aircraft n criteria :
  Alert.Timestamp <$> evaluate rt aircraft n criteria
  = now rt <$> seq n (length (evaluate rt aircraft n criteria)).
Proof.
  rewrite length_evaluate. unfold evaluate.
  generalize (filter (Matches aircraft) criteria) as cs. intros cs. revert n.
  induction cs as [|c cs IH]; intros n; [done|].
  rewrite imap_cons. cbn [fmap list_fmap length seq]. rewrite Nat.add_0_r. f_equal.
  etrans; [|apply (IH (S n))]. f_equal. apply imap_ext. intros k c' _. simpl.
  do 2 f_equal. lia.
Qed.

(** X3.  An accepted ingestion reads the clock once for the aircraft
    and once more for each alert it raises, in that order: the aircraft
    in every alert carries the first reading, the alerts carry the
    following readings in log order, and the clock has advanced by one
    plus the number of alerts. *)
Theorem ingestion_clock_readings rt body decoded s :
  decodeAircraft rt body = Some decoded ->
  exists raised,
    alerts_of (postAircraft rt body s).1.2 = alerts_of s ++ raised /\
    Forall (fun alert => Aircraft.Timestamp (Alert.Aircraft alert) = now rt (clock s))
           raised /\
    Alert.Timestamp <$> raised = now rt <$> seq (S (clock s)) (length raised) /\
    clock (postAircraft rt body s).1.2 = S (clock s) + length raised.
Proof.
  intros Hdec.
  destruct (postAircraft_accepted rt body decoded s Hdec)
    as (s' & -> & _ & Hlog & Hclock & _).
  eexists. split; [exact Hlog|]. split_and!.
  - apply Forall_forall. intros alert Hin.
    by apply elem_of_evaluate in Hin as (-> & _).
  - apply evaluate_Timestamp.
  - exact Hclock.
Qed.

Lemma ingestion_clock_readings_witness :
  let rt := test_runtime true in
  decodeAircraft rt "TARGET1" = Some (sample_aircraft "AABBCC" "TARGET1") /\
  Alert.Timestamp <$> alerts_of (postAircraft rt "TARGET1" main_init).1.2
  = [UnixNano 1001; UnixNano 1002].
Proof.
  intros rt. split; [reflexivity|].
  destruct (ingestion_clock_readings rt "TARGET1" _ main_init eq_refl)
    as (raised & Hlog & _ & Hts & _).
  rewrite Hlog, fmap_app, Hts.
  assert (length raised = 2) as ->; [|reflexivity].
  apply (f_equal length) in Hlog. rewrite length_app in Hlog.
  change (length (alerts_of (postAircraft rt "TARGET1" main_init).1.2)) with 2 in Hlog.
  change (length (alerts_of main_init)) with 0 in Hlog. simpl in Hlog. by symmetry.
Defined.

(** Two states with the same criteria, log contents and clock answer a
    request alike and stay alike. *)
Lemma serve_observable rt r s s' :
  log_allocated s -> log_allocated s' ->
  observable s = observable s' ->
  observable (serve rt r s).1.2 = observable (serve rt r s').1.2 /\
  (serve rt r s).2 = (serve rt r s').2 /\
  render (serve rt r s).1.1 (serve rt r s).1.2
  = render (serve rt r s').1.1 (serve rt r s').1.2.
Proof.
  intros Hwf Hwf' Hobs. unfold observable in Hobs.
  injection Hobs as Hcrit Hlog Hclock.
  destruct r as [body| |body]; cbn [serve].
  - destruct (decodeAircraft rt body) as [decoded|] eqn:Hdec.
    + destruct (postAircraft_accepted rt body decoded s Hdec)
        as (s1 & -> & Hc1 & Hl1 & Hk1 & _).
      destruct (postAircraft_accepted rt body decoded s' Hdec)
        as (s2 & -> & Hc2 & Hl2 & Hk2 & _).
      cbn [fst snd]. unfold observable.
      rewrite Hc1, Hc2, Hl1, Hl2, Hk1, Hk2, Hcrit, Hlog, Hclock. done.
    + rewrite !postAircraft_rejected by done. cbn [fst snd]. unfold observable.
      by rewrite Hcrit, Hlog, Hclock.
  - destruct (getAlerts_copy s Hwf) as (sl & s1 & Hget & Hv1 & Hl1 & _ & Hc1 & _).
    destruct (getAlerts_copy s' Hwf') as (sl' & s2 & Hget' & Hv2 & Hl2 & _ & Hc2 & _).
    pose proof (f_equal (fun r => clock r.1.2) Hget) as Hk1. simpl in Hk1.
    pose proof (f_equal (fun r => clock r.1.2) Hget') as Hk2. simpl in Hk2.
    rewrite Hget, Hget'. cbn [fst snd]. unfold observable, render. cbn [status payload].
    rewrite Hc1, Hc2, Hl1, Hl2, <- Hk1, <- Hk2, Hv1, Hv2, Hcrit, Hlog, Hclock. done.
  - unfold postAlertCriteria. destruct (decodeCriteria rt body); cbn [fst snd];
      unfold observable, alerts_of in *; cbn; by rewrite ?Hcrit, ?Hlog, ?Hclock.
Qed.

Lemma transcript_observable rt reqs : forall s s',
  log_allocated s -> log_allocated s' ->
  observable s = observable s' ->
  transcript rt reqs s = transcript rt reqs s' /\
  observable (serve_all rt reqs s) = observable (serve_all rt reqs s').
Proof.
  induction reqs as [|r reqs IH]; intros s s' Hwf Hwf' Hobs; [done|].
  destruct (serve_observable rt r s s' Hwf Hwf' Hobs) as (Hobs1 & Hout & Hresp).
  destruct (IH _ _ (log_allocated_serve rt r s Hwf) (log_allocated_serve rt r s' Hwf') Hobs1)
    as [Htr Hfin].
  cbn [transcript serve_all]. by rewrite Hout, Hresp, Htr.
Qed.

(** X4.  [GET /api/alerts] is a pure read.  Take any history of requests
    and insert a [GET /api/alerts] anywhere in it: every later request
    gets the same response (status and serialised value) and sends the
    same messages to the hub, and the criteria, the contents of the log
    and the clock end up the same. *)
Theorem get_alerts_is_invisible rt earlier later :
  let with_get := serve_all rt (earlier ++ [GET_alerts]) main_init in
  let without := serve_all rt earlier main_init in
  transcript rt later with_get = transcript rt later without /\
  observable (serve_all rt later with_get) = observable (serve_all rt later without).
Proof.
  intros with_get without.
  destruct (serve_all_log rt earlier main_init log_allocated_main_init) as [Hwf _].
  fold without in Hwf.
  assert (Hstep : with_get = (getAlerts without).1.2).
  { unfold with_get. by rewrite serve_all_app. }
  destruct (getAlerts_copy without Hwf) as (sl & s1 & Hget & _ & Hl & _ & Hc & _).
  apply transcript_observable.
  - rewrite Hstep. apply (log_allocated_serve rt GET_alerts without Hwf).
  - done.
  - pose proof (f_equal (fun r => clock r.1.2) Hget) as Hk. simpl in Hk.
    rewrite Hstep, Hget. cbn [fst snd]. unfold observable. by rewrite Hl, Hc, <- Hk.
Qed.

(** * Further properties of the hub *)

Lemma fan_out_cons message messages h :
  fan_out (message :: messages) h = rbind (on_broadcast message h) (fan_out messages).
Proof. reflexivity. Qed.

Lemma on_broadcast_registered message h :
  Hub_ok h ->
  exists h',
    on_broadcast message h = Ok h' /\ Hub_ok h' /\
    length (objects h') = length (objects h) /\
    (forall client, clients h !! client = None ->
       clients h' !! client = None /\ objects h' !! client = objects h !! client) /\
    (forall client cl, is_Some (clients h !! client) -> objects h !! client = Some cl ->
       if decide (length (buf (Send cl)) < capacity (Send cl))
       then clients h' !! client = clients h !! client /\
            objects h' !! client = Some (enqueued message cl)
       else clients h' !! client = None /\
            objects h' !! client = Some (shut cl)).
Proof.
  intros Hok.
  destruct (Hub_ok_broadcast message h Hok) as (h' & Hrun & Hok').
  destruct (broadcast_in_registered message _ h Hok (reflexivity _))
    as (h2 & Hrun2 & Hrest).
  assert (h2 = h') as -> by (unfold on_broadcast in Hrun; congruence).
  by exists h'.
Qed.

(** X7.  A broadcast never reaches a client that is not in the hub's set
    when it is served, whether the client was dropped, unregistered or
    has not registered yet, and whether or not its queue has room: after
    any number of broadcasts its queue is as it was and it is still not
    in the set. *)
Theorem fan_out_skips_unregistered messages client : forall h,
  Hub_ok h ->
  clients h !! client = None ->
  exists h',
    fan_out messages h = Ok h' /\ Hub_ok h' /\
    clients h' !! client = None /\
    objects h' !! client = objects h !! client.
Proof.
  induction messages as [|m messages IH]; intros h Hok Hout.
  - by exists h.
  - destruct (on_broadcast_registered m h Hok) as (h1 & Hrun & Hok1 & _ & Hskip & _).
    destruct (Hskip client Hout) as [Hout1 Hobj1].
    destruct (IH h1 Hok1 Hout1) as (h' & Hrest & Hok' & Hout' & Hobj').
    exists h'. rewrite fan_out_cons, Hrun. simpl. split_and!; try done. congruence.
Qed.

Lemma fan_out_skips_unregistered_witness :
  let h := {| clients := {[ 1 := true ]}; objects := objects crowded_hub |} in
  Hub_ok crowded_hub /\ clients h !! 0 = None /\
  exists h', fan_out ["a"; "b"] h = Ok h' /\ objects h' !! 0 = objects h !! 0.
Proof.
  intros h.
  assert (Hok : Hub_ok h).
  { split.
    - intros client [b Hb]. simpl in Hb.
      apply lookup_singleton_Some in Hb as [<- _]. eexists. split; reflexivity.
    - apply (queues_bounded crowded_hub Hub_ok_crowded_hub). }
  split; [exact Hub_ok_crowded_hub|]. split; [reflexivity|].
  destruct (fan_out_skips_unregistered ["a"; "b"] 0 h Hok eq_refl)
    as (h' & Hrun & _ & _ & Hobj).
  by exists h'.
Defined.

(** X6.  Broadcasts arrive in the order the hub served them.  When every
    registered client has room for all of [messages], serving them one
    after the other keeps the client set as it is and leaves each
    registered client's queue as it was with exactly [messages] added at
    its end, in order. *)
Theorem fan_out_in_order messages : forall h,
  Hub_ok h ->
  (forall client cl, is_Some (clients h !! client) -> objects h !! client = Some cl ->
     length (buf (Send cl)) + length messages <= 256) ->
  exists h',
    fan_out messages h = Ok h' /\ Hub_ok h' /\
    clients h' = clients h /\
    forall client cl, is_Some (clients h !! client) -> objects h !! client = Some cl ->
      objects h' !! client
      = Some {| ID := ID cl;
                Send := {| buf := buf (Send cl) ++ messages;
                           capacity := capacity (Send cl); closed := false |} |}.
Proof.
  induction messages as [|m messages IH]; intros h Hok Hroom.
  - exists h. split_and!; try done. intros client cl Hreg Hobj.
    destruct (members_open h Hok client Hreg) as (cl' & Hobj' & Hopen).
    assert (cl' = cl) as -> by congruence.
    rewrite Hobj, app_nil_r. destruct cl as [id [q k c]]. simpl in *. by subst c.
  - destruct (on_broadcast_registered m h Hok) as (h1 & Hrun & Hok1 & _ & Hskip & Hin).
    assert (Hone : forall client cl,
              is_Some (clients h !! client) -> objects h !! client = Some cl ->
              clients h1 !! client = clients h !! client /\
              objects h1 !! client = Some (enqueued m cl)).
    { intros client cl Hreg Hobj. specialize (Hin client cl Hreg Hobj).
      destruct (queues_bounded h Hok client cl Hobj) as [Hcap _].
      specialize (Hroom client cl Hreg Hobj). simpl in Hroom.
      rewrite decide_True in Hin by lia. done. }
    assert (Hsame : clients h1 = clients h).
    { apply map_eq. intros client.
      destruct (clients h !! client) as [b|] eqn:Hreg.
      - destruct (members_open h Hok client) as (cl & Hobj & _); [by exists b|].
        destruct (Hone client cl) as [-> _]; [by exists b|done|done].
      - by destruct (Hskip client Hreg) as [-> _]. }
    destruct (IH h1 Hok1) as (h' & Hrest & Hok' & Hsame' & Hall).
    { intros client cl1 Hreg1 Hobj1. rewrite Hsame in Hreg1.
      destruct (members_open h Hok client Hreg1) as (cl & Hobj & _).
      destruct (Hone client cl Hreg1 Hobj) as [_ Hobj1'].
      assert (cl1 = enqueued m cl) as -> by congruence.
      specialize (Hroom client cl Hreg1 Hobj). simpl in *.
      rewrite length_app. simpl. lia. }
    exists h'. rewrite fan_out_cons, Hrun. simpl. split_and!; try done; [congruence|].
    intros client cl Hreg Hobj.
    destruct (Hone client cl Hreg Hobj) as [_ Hobj1].
    rewrite (Hall client (enqueued m cl)); [|by rewrite Hsame|done].
    simpl. by rewrite <- app_assoc.
Qed.

Lemma fan_out_in_order_witness :
  let h := {| clients := {[ 1 := true ]}; objects := objects crowded_hub |} in
  exists h',
    fan_out ["M1"; "M2"; "M3"] h = Ok h' /\
    (buf ∘ Send) <$> objects h' !! 1 = Some ["M1"; "M2"; "M3"].
Proof.
  intros h.
  assert (Hok : Hub_ok h).
  { split.
    - intros client [b Hb]. simpl in Hb.
      apply lookup_singleton_Some in Hb as [<- _]. eexists. split; reflexivity.
    - apply (queues_bounded crowded_hub Hub_ok_crowded_hub). }
  assert (Hroom : forall client cl,
            is_Some (clients h !! client) -> objects h !! client = Some cl ->
            length (buf (Send cl)) + length ["M1"; "M2"; "M3"] <= 256).
  { intros client cl [b Hb] Hobj. simpl in Hb.
    apply lookup_singleton_Some in Hb as [<- _]. injection Hobj as <-. simpl. lia. }
  destruct (fan_out_in_order ["M1"; "M2"; "M3"] h Hok Hroom) as (h' & Hrun & _ & _ & Hall).
  exists h'. split; [exact Hrun|].
  by rewrite (Hall 1 _ (ltac:(by exists true)) eq_refl).
Defined.

(** * The streaming endpoint and the hub together *)

Lemma on_unregister_released h client :
  Hub_ok h ->
  exists h',
    on_unregister client h = Ok h' /\ Hub_ok h' /\
    clients h' = delete client (clients h) /\
    length (objects h') = length (objects h) /\
    (forall c, c <> client -> objects h' !! c = objects h !! c) /\
    (forall cl, objects h !! client = Some cl ->
       objects h' !! client
       = Some (match clients h !! client with Some _ => shut cl | None => cl end)).
Proof.
  intros Hok.
  destruct (step_ok (Serve (Unregister client)) h Hok I) as (h' & Hrun & Hok').
  simpl in Hrun. exists h'. split; [done|]. split; [done|].
  unfold on_unregister in Hrun.
  destruct (clients h !! client) as [b|] eqn:Hreg.
  - destruct (members_open h Hok client) as (cl & Hobj & Hopen); [by exists b|].
    rewrite (drop_client_open h client cl Hobj Hopen) in Hrun. injection Hrun as <-.
    simpl. split_and!.
    + done.
    + apply length_insert.
    + intros c Hne. by rewrite list_lookup_insert_ne.
    + intros cl' Hobj'. assert (cl' = cl) as -> by congruence.
      apply list_lookup_insert_eq. by eapply lookup_lt_Some.
  - injection Hrun as <-. split_and!; try done. by rewrite delete_id.
Qed.

(** A turn of the loop: the handler keeps its client and does not finish,
    the client set is untouched, and only the handler's own queue can
    change, by the message that moves from it to the connection. *)
Lemma turn_streaming sel ses h :
  Hub_ok h ->
  phase ses = Streaming ->
  session_client ses < length (objects h) ->
  exists ses' h',
    getEvents_turn sel ses h = Ok (ses', h') /\
    session_client ses' = session_client ses /\
    phase ses' <> Gone /\
    Hub_ok h' /\
    clients h' = clients h /\
    length (objects h') = length (objects h) /\
    (forall c, c <> session_client ses -> objects h' !! c = objects h !! c) /\
    (forall cl, objects h !! session_client ses = Some cl ->
       exists cl', objects h' !! session_client ses = Some cl' /\
         closed (Send cl') = closed (Send cl) /\
         (phase ses' = Streaming ->
          written ses' ++ buf (Send cl') = written ses ++ buf (Send cl))).
Proof.
  intros Hok Hph Hlt.
  set (P := fun r : result (Session * Hub) =>
    exists ses' h',
      r = Ok (ses', h') /\
      session_client ses' = session_client ses /\
      phase ses' <> Gone /\ Hub_ok h' /\ clients h' = clients h /\
      length (objects h') = length (objects h) /\
      (forall c, c <> session_client ses -> objects h' !! c = objects h !! c) /\
      (forall cl, objects h !! session_client ses = Some cl ->
         exists cl', objects h' !! session_client ses = Some cl' /\
           closed (Send cl') = closed (Send cl) /\
           (phase ses' = Streaming ->
            written ses' ++ buf (Send cl') = written ses ++ buf (Send cl)))).
  change (P (getEvents_turn sel ses h)).
  assert (Hstay : forall ses', session_client ses' = session_client ses ->
            phase ses' <> Gone ->
            (phase ses' = Streaming -> written ses' = written ses) ->
            P (Ok (ses', h))).
  { intros ses' Hc Hp Hw. exists ses', h. split_and!; try done.
    intros cl Hobj. exists cl. split_and!; try done. intros Hs. by rewrite Hw. }
  unfold getEvents_turn. rewrite Hph.
  destruct sel as [write_ok|]; [|by apply Hstay].
  destruct (lookup_lt_is_Some_2 (objects h) _ Hlt) as [cl Hobj]. rewrite Hobj.
  unfold try_recv. destruct (buf (Send cl)) as [|m rest] eqn:Hq.
  - destruct (closed (Send cl)); apply Hstay; try done. by rewrite Hph.
  - set (cl1 := {| ID := ID cl;
                   Send := {| buf := rest; capacity := capacity (Send cl);
                              closed := closed (Send cl) |} |}).
    set (h1 := {| clients := clients h;
                  objects := <[session_client ses := cl1]> (objects h) |}).
    assert (Hok1 : Hub_ok h1).
    { destruct (step_ok (Receive (session_client ses)) h Hok (ltac:(by exists cl)))
        as (h' & Hrun & Hok'). simpl in Hrun. unfold on_receive, try_recv in Hrun.
      rewrite Hobj, Hq in Hrun. by injection Hrun as <-. }
    assert (Hframe : forall c, c <> session_client ses -> objects h1 !! c = objects h !! c).
    { intros c Hne. simpl. by rewrite list_lookup_insert_ne. }
    assert (Hown : objects h1 !! session_client ses = Some cl1).
    { simpl. by apply list_lookup_insert_eq. }
    assert (Hlen : length (objects h1) = length (objects h)) by apply length_insert.
    destruct write_ok.
    + eexists _, h1. split; [reflexivity|]. split_and!; try done.
      intros cl' Hobj'. assert (cl' = cl) as -> by congruence.
      exists cl1. split_and!; try done. intros _. simpl.
      by rewrite Hq, <- app_assoc.
    + eexists _, h1. split; [reflexivity|]. split_and!; try done.
      intros cl' Hobj'. assert (cl' = cl) as -> by congruence.
      exists cl1. split_and!; try done.
Qed.

(** How the world may change without breaking [World_ok]: members are
    only removed, queues of released clients are closed, and each
    handler keeps its client and is out of the set once it is [Gone]. *)
Lemma world_ok_evolve w h' ss' :
  World_ok w ->
  Hub_ok h' ->
  length (objects h') = length (objects (hub w)) ->
  (forall c, is_Some (clients h' !! c) -> is_Some (clients (hub w) !! c)) ->
  (forall c cl', objects h' !! c = Some cl' -> clients h' !! c = None ->
     closed (Send cl') = true) ->
  (forall j,
     match sessions w !! j, ss' !! j with
     | Some a, Some b =>
         session_client b = session_client a /\
         (phase b = Gone -> clients h' !! session_client a = None)
     | None, None => True
     | _, _ => False
     end) ->
  World_ok {| hub := h'; sessions := ss' |}.
Proof.
  intros Hw Hok Hlen Hsub Hclosed Hrel. split; simpl.
  - done.
  - intros i b Hb. specialize (Hrel i). rewrite Hb in Hrel.
    destruct (sessions w !! i) as [a|] eqn:Ha; [|done].
    destruct Hrel as [-> _]. rewrite Hlen. by apply (clients_exist w Hw i).
  - intros i j bi bj Hbi Hbj Heq.
    pose proof (Hrel i) as Hi. pose proof (Hrel j) as Hj. rewrite Hbi in Hi. rewrite Hbj in Hj.
    destruct (sessions w !! i) as [ai|] eqn:Hai; [|done].
    destruct (sessions w !! j) as [aj|] eqn:Haj; [|done].
    destruct Hi as [Hi _], Hj as [Hj _].
    apply (clients_distinct w Hw i j ai aj Hai Haj). congruence.
  - intros i b Hb Hgone. specialize (Hrel i). rewrite Hb in Hrel.
    destruct (sessions w !! i) as [a|] eqn:Ha; [|done].
    destruct Hrel as [-> Hrel]. by apply Hrel.
  - done.
  - intros c Hreg.
    destruct (members_live w Hw c (Hsub c Hreg)) as (j & a & Ha & Hc & Hlive).
    specialize (Hrel j). rewrite Ha in Hrel.
    destruct (ss' !! j) as [b|] eqn:Hb; [|done].
    destruct Hrel as [Hcb Hgone]. exists j, b. split_and!; [done|congruence|].
    intros Hg. specialize (Hgone Hg). rewrite Hc in Hgone.
    rewrite Hgone in Hreg. by destruct Hreg.
Qed.

(** The same, for one handler taking a step. *)
Lemma world_ok_turn w h' i ses ses' :
  World_ok w ->
  sessions w !! i = Some ses ->
  session_client ses' = session_client ses ->
  Hub_ok h' ->
  length (objects h') = length (objects (hub w)) ->
  (forall c, is_Some (clients h' !! c) -> is_Some (clients (hub w) !! c)) ->
  (forall c cl', objects h' !! c = Some cl' -> clients h' !! c = None ->
     closed (Send cl') = true) ->
  (phase ses' = Gone -> clients h' !! session_client ses = None) ->
  World_ok {| hub := h'; sessions := <[i := ses']> (sessions w) |}.
Proof.
  intros Hw Hi Hc Hok Hlen Hsub Hclosed Hgone.
  apply (world_ok_evolve w); try done.
  intros j. destruct (decide (j = i)) as [->|Hne].
  - rewrite Hi, list_lookup_insert_eq by (by eapply lookup_lt_Some). done.
  - rewrite list_lookup_insert_ne by done.
    destruct (sessions w !! j) as [a|] eqn:Ha; [|done]. split; [done|].
    intros Hg. apply eq_None_not_Some. intros Hreg.
    apply Hsub in Hreg. rewrite (gone_released w Hw j a Ha Hg) in Hreg. by destruct Hreg.
Qed.

Lemma getEvents_open_registers remoteAddr h :
  Hub_ok h ->
  let c := length (objects h) in
  let h' := {| clients := <[c := true]> (clients h);
               objects := objects h ++ [ {| ID := remoteAddr; Send := make_chan 256 |} ] |} in
  getEvents_open true remoteAddr h
    = Ok (inr {| session_client := c; phase := Streaming; written := [] |}, h') /\
  Hub_ok h'.
Proof.
  intros Hok c h'.
  destruct (step_ok (Connect remoteAddr) h Hok I) as (h1 & Hrun1 & Hok1).
  simpl in Hrun1. injection Hrun1 as <-.
  assert (Hnew : objects (new_Client remoteAddr h).2 !! c
                 = Some {| ID := remoteAddr; Send := make_chan 256 |}).
  { simpl. by rewrite list_lookup_middle. }
  destruct (step_ok (Serve (Register c)) _ Hok1) as (h2 & Hrun2 & Hok2).
  { eexists. split; [exact Hnew|done]. }
  simpl in Hrun2. unfold getEvents_open. cbn [fst snd new_Client] in *. fold c.
  unfold on_register in *. cbn [objects] in *. rewrite Hnew in *.
  injection Hrun2 as <-. done.
Qed.

(** Every event takes a good world to a good world. *)
Lemma world_step_ok e w :
  World_ok w -> exists w', world_step e w = Ok w' /\ World_ok w'.
Proof.
  intros Hw. pose proof (world_hub_ok w Hw) as Hok.
  destruct e as [flusher remoteAddr|i sel|message]; cbn [world_step].
  - destruct flusher; [|exists w; split; [by destruct w|done]].
    destruct (getEvents_open_registers remoteAddr (hub w) Hok) as [-> Hok'].
    cbn [rbind fst snd]. eexists. split; [reflexivity|].
    set (c := length (objects (hub w))).
    split; cbn [hub sessions clients objects].
    + done.
    + intros i ses Hi. rewrite length_app. simpl.
      apply lookup_app_Some in Hi as [Hi|[_ Hi]].
      * pose proof (clients_exist w Hw i ses Hi). lia.
      * apply list_lookup_singleton_Some in Hi as [_ <-]. simpl. fold c. lia.
    + intros i j si sj Hi Hj Heq.
      apply lookup_app_Some in Hi as [Hi|[Hge Hi]];
        apply lookup_app_Some in Hj as [Hj|[Hge' Hj]].
      * by apply (clients_distinct w Hw i j si sj).
      * apply list_lookup_singleton_Some in Hj as [_ <-]. simpl in Heq.
        pose proof (clients_exist w Hw i si Hi). fold c in Heq. lia.
      * apply list_lookup_singleton_Some in Hi as [_ <-]. simpl in Heq.
        pose proof (clients_exist w Hw j sj Hj). fold c in Heq. lia.
      * apply list_lookup_singleton_Some in Hi as [Hi _].
        apply list_lookup_singleton_Some in Hj as [Hj _]. lia.
    + intros i ses Hi Hgone. apply lookup_app_Some in Hi as [Hi|[_ Hi]].
      * pose proof (clients_exist w Hw i ses Hi). fold c in H.
        rewrite lookup_insert_ne by lia. by apply (gone_released w Hw i).
      * by apply list_lookup_singleton_Some in Hi as [_ <-].
    + intros client cl Hobj Hout.
      apply lookup_insert_None in Hout as [Hout Hne].
      apply lookup_app_Some in Hobj as [Hobj|[Hge Hobj]].
      * by apply (released_closed w Hw client).
      * apply list_lookup_singleton_Some in Hobj as [Hc _]. fold c in Hge, Hc. lia.
    + intros client Hreg. destruct (decide (client = c)) as [->|Hne].
      * exists (length (sessions w)). eexists. split_and!.
        -- by apply list_lookup_middle.
        -- done.
        -- done.
      * rewrite lookup_insert_ne in Hreg by done.
        destruct (members_live w Hw client Hreg) as (i & ses & Hi & Hc & Hlive).
        exists i, ses. split_and!; try done.
        rewrite lookup_app_l; [done|by eapply lookup_lt_Some].
  - destruct (sessions w !! i) as [ses|] eqn:Hi; [|by exists w].
    pose proof (clients_exist w Hw i ses Hi) as Hlt.
    destruct (phase ses) eqn:Hph.
    + destruct (turn_streaming sel ses (hub w) Hok Hph Hlt)
        as (ses' & h' & -> & Hc & Hlive & Hok' & Hsame & Hlen & Hframe & Hown).
      cbn [rbind fst snd]. eexists. split; [reflexivity|].
      apply (world_ok_turn w h' i ses ses' Hw Hi Hc Hok' Hlen).
      * intros c. by rewrite Hsame.
      * intros c cl' Hobj' Hout. rewrite Hsame in Hout.
        destruct (decide (c = session_client ses)) as [->|Hne].
        -- destruct (lookup_lt_is_Some_2 (objects (hub w)) _ Hlt) as [cl Hobj].
           destruct (Hown cl Hobj) as (cl1 & Hobj1 & Hcl & _).
           assert (cl' = cl1) as -> by congruence. rewrite Hcl.
           by apply (released_closed w Hw (session_client ses)).
        -- rewrite Hframe in Hobj' by done. by apply (released_closed w Hw c).
      * done.
    + unfold getEvents_turn. rewrite Hph.
      destruct (on_unregister_released (hub w) (session_client ses) Hok)
        as (h' & -> & Hok' & Hcl & Hlen & Hframe & Hown).
      cbn [rbind fst snd]. eexists. split; [reflexivity|].
      apply (world_ok_turn w h' i ses (enter Gone ses) Hw Hi eq_refl Hok' Hlen).
      * intros c. rewrite Hcl. intros Hreg. apply lookup_delete_is_Some in Hreg. tauto.
      * intros c cl' Hobj' Hout. rewrite Hcl in Hout.
        destruct (decide (c = session_client ses)) as [->|Hne].
        -- destruct (lookup_lt_is_Some_2 (objects (hub w)) _ Hlt) as [cl Hobj].
           rewrite (Hown cl Hobj) in Hobj'. injection Hobj' as <-.
           destruct (clients (hub w) !! session_client ses) eqn:Hreg; [done|].
           by apply (released_closed w Hw (session_client ses)).
        -- rewrite lookup_delete_ne in Hout by done. rewrite Hframe in Hobj' by done.
           by apply (released_closed w Hw c).
      * intros _. rewrite Hcl. apply lookup_delete_eq.
    + unfold getEvents_turn. rewrite Hph. cbn [rbind fst snd].
      exists w. split; [|done]. rewrite list_insert_id by done. by destruct w.
  - destruct (on_broadcast_registered message (hub w) Hok)
      as (h' & -> & Hok' & Hlen & Hskip & Hin).
    cbn [rbind]. eexists. split; [reflexivity|].
    apply (world_ok_evolve w); try done.
    + intros c Hreg. destruct (clients (hub w) !! c) eqn:Hc; [done|].
      destruct (Hskip c Hc) as [Hnone _]. rewrite Hnone in Hreg. by destruct Hreg.
    + intros c cl' Hobj' Hout.
      destruct (clients (hub w) !! c) as [b|] eqn:Hc.
      * destruct (members_open _ Hok c) as (cl & Hobj & _); [by exists b|].
        specialize (Hin c cl (ltac:(by exists b)) Hobj).
        destruct (decide (length (buf (Send cl)) < capacity (Send cl)));
          destruct Hin as [Hc' Ho]; [congruence|].
        rewrite Ho in Hobj'. by injection Hobj' as <-.
      * destruct (Hskip c Hc) as [_ Hsame]. rewrite Hsame in Hobj'.
        by apply (released_closed w Hw c).
    + intros j. destruct (sessions w !! j) as [a|] eqn:Ha; [|done]. split; [done|].
      intros Hgone. by apply Hskip, (gone_released w Hw j).
Qed.

Lemma World_ok_boot : World_ok boot.
Proof.
  split; simpl.
  - apply Hub_ok_newHub.
  - intros i ses Hi. by rewrite lookup_nil in Hi.
  - intros i j si sj Hi. by rewrite lookup_nil in Hi.
  - intros i ses Hi. by rewrite lookup_nil in Hi.
  - intros client cl Hobj. by rewrite lookup_nil in Hobj.
  - intros client [b Hb]. by rewrite lookup_empty in Hb.
Qed.

Lemma world_run_ok events : forall w,
  World_ok w -> exists w', world_run events w = Ok w' /\ World_ok w'.
Proof.
  induction events as [|e events IH]; intros w Hw; simpl.
  - by exists w.
  - destruct (world_step_ok e w Hw) as (w1 & -> & Hw1). simpl. by apply IH.
Qed.

Lemma published_cons e events :
  published (e :: events) = published [e] ++ published events.
Proof. unfold published. simpl. by destruct e. Qed.

(** One event, seen from connection [i]: if it is healthy afterwards it
    was healthy before, and what it has been given grew by exactly the
    message published, if the event was one. *)
Lemma stream_step e w w' i :
  World_ok w ->
  is_Some (sessions w !! i) ->
  world_step e w = Ok w' ->
  healthy w' i ->
  healthy w i /\ stream_of w' i = stream_of w i ++ published [e].
Proof.
  intros Hw [a Hi] Hstep Hh. pose proof (world_hub_ok w Hw) as Hok.
  pose proof (clients_exist w Hw i a Hi) as Hlt.
  destruct (lookup_lt_is_Some_2 (objects (hub w)) _ Hlt) as [cl Hobj].
  assert (Hstream : stream_of w i = written a ++ buf (Send cl)).
  { unfold stream_of. by rewrite Hi, Hobj. }
  destruct e as [flusher remoteAddr|j sel|message]; cbn [world_step] in Hstep.
  - change (published [Opens flusher remoteAddr]) with (@nil string). rewrite app_nil_r.
    destruct flusher.
    + destruct (getEvents_open_registers remoteAddr (hub w) Hok) as [Hopen _].
      rewrite Hopen in Hstep. cbn [rbind fst snd] in Hstep. injection Hstep as <-.
      destruct Hh as (b & Hb & Hph & Hreg). cbn [hub sessions clients] in *.
      rewrite lookup_app_l in Hb by (by eapply lookup_lt_Some).
      assert (b = a) as -> by congruence.
      rewrite lookup_insert_ne in Hreg by lia.
      split; [by exists a|].
      unfold stream_of. cbn [hub sessions objects].
      rewrite lookup_app_l by (by eapply lookup_lt_Some). rewrite Hi.
      by rewrite lookup_app_l by done.
    + simpl in Hstep. injection Hstep as <-.
      assert (Hsame : {| hub := hub w; sessions := sessions w |} = w) by (by destruct w).
      rewrite Hsame in *. done.
  - change (published [Turn j sel]) with (@nil string). rewrite app_nil_r.
    destruct (sessions w !! j) as [sj|] eqn:Hj; [|by injection Hstep as <-].
    pose proof (clients_exist w Hw j sj Hj) as Hltj.
    destruct (decide (j = i)) as [->|Hne].
    + assert (sj = a) as -> by congruence.
      destruct (phase a) eqn:Hph.
      * destruct (turn_streaming sel a (hub w) Hok Hph Hlt)
          as (ses' & h' & Hturn & Hc & _ & _ & Hsame & _ & _ & Hown).
        rewrite Hturn in Hstep. cbn [rbind fst snd] in Hstep. injection Hstep as <-.
        destruct Hh as (b & Hb & Hphb & Hreg). cbn [hub sessions] in *.
        rewrite list_lookup_insert_eq in Hb by (by eapply lookup_lt_Some).
        injection Hb as <-. rewrite Hsame, Hc in Hreg.
        split; [by exists a|].
        destruct (Hown cl Hobj) as (cl' & Hobj' & _ & Hkeep).
        unfold stream_of. cbn [hub sessions].
        rewrite list_lookup_insert_eq by (by eapply lookup_lt_Some).
        rewrite Hc, Hobj', Hi, Hobj. by apply Hkeep.
      * exfalso. unfold getEvents_turn in Hstep. rewrite Hph in Hstep.
        destruct (on_unregister_released (hub w) (session_client a) Hok) as (h' & Hun & _).
        rewrite Hun in Hstep. cbn [rbind fst snd] in Hstep. injection Hstep as <-.
        destruct Hh as (b & Hb & Hphb & _). cbn [sessions] in Hb.
        rewrite list_lookup_insert_eq in Hb by (by eapply lookup_lt_Some).
        by injection Hb as <-.
      * exfalso. unfold getEvents_turn in Hstep. rewrite Hph in Hstep.
        cbn [rbind fst snd] in Hstep. injection Hstep as <-.
        destruct Hh as (b & Hb & Hphb & _). cbn [sessions] in Hb.
        rewrite list_lookup_insert_eq in Hb by (by eapply lookup_lt_Some).
        injection Hb as <-. congruence.
    + assert (Hcne : session_client a <> session_client sj).
      { intros Heq. apply Hne. symmetry. by apply (clients_distinct w Hw i j a sj). }
      assert (Hgoal : forall sj' h',
                (forall c, is_Some (clients h' !! c) -> is_Some (clients (hub w) !! c)) ->
                (forall c, c <> session_client sj -> objects h' !! c = objects (hub w) !! c) ->
                healthy {| hub := h'; sessions := <[j := sj']> (sessions w) |} i ->
                healthy w i /\
                stream_of {| hub := h'; sessions := <[j := sj']> (sessions w) |} i
                = stream_of w i).
      { intros sj' h' Hsub Hframe (b & Hb & Hphb & Hreg). cbn [hub sessions] in *.
        rewrite list_lookup_insert_ne in Hb by done.
        assert (b = a) as -> by congruence.
        split; [exists a; split_and!; [done|done|by apply Hsub]|].
        unfold stream_of. cbn [hub sessions].
        rewrite list_lookup_insert_ne by done. rewrite Hi. by rewrite Hframe. }
      destruct (phase sj) eqn:Hph.
      * destruct (turn_streaming sel sj (hub w) Hok Hph Hltj)
          as (ses' & h' & Hturn & _ & _ & _ & Hsame & _ & Hframe & _).
        rewrite Hturn in Hstep. cbn [rbind fst snd] in Hstep. injection Hstep as <-.
        apply Hgoal; try done. intros c. by rewrite Hsame.
      * unfold getEvents_turn in Hstep. rewrite Hph in Hstep.
        destruct (on_unregister_released (hub w) (session_client sj) Hok)
          as (h' & Hun & _ & Hcl & _ & Hframe & _).
        rewrite Hun in Hstep. cbn [rbind fst snd] in Hstep. injection Hstep as <-.
        apply Hgoal; try done. intros c. rewrite Hcl. intros Hreg.
        apply lookup_delete_is_Some in Hreg. tauto.
      * unfold getEvents_turn in Hstep. rewrite Hph in Hstep.
        cbn [rbind fst snd] in Hstep. injection Hstep as <-.
        apply Hgoal; done.
  - change (published [Publish message]) with [message].
    destruct (on_broadcast_registered message (hub w) Hok)
      as (h' & Hrun & _ & _ & Hskip & Hin).
    rewrite Hrun in Hstep. cbn [rbind] in Hstep. injection Hstep as <-.
    destruct Hh as (b & Hb & Hphb & Hreg). cbn [hub sessions] in *.
    assert (b = a) as -> by congruence.
    destruct (clients (hub w) !! session_client a) as [r|] eqn:Hr.
    + specialize (Hin (session_client a) cl (ltac:(by exists r)) Hobj).
      destruct (decide (length (buf (Send cl)) < capacity (Send cl)));
        destruct Hin as [Hc Ho].
      * split; [exists a; split_and!; [done|done|by exists r]|].
        unfold stream_of. cbn [hub sessions]. rewrite Hi, Ho, Hobj. simpl.
        by rewrite app_assoc.
      * rewrite Hc in Hreg. by destruct Hreg.
    + destruct (Hskip _ Hr) as [Hnone _]. rewrite Hnone in Hreg. by destruct Hreg.
Qed.

Lemma sessions_kept e w w' i :
  World_ok w -> is_Some (sessions w !! i) -> world_step e w = Ok w' ->
  is_Some (sessions w' !! i).
Proof.
  intros Hw Hi Hstep. apply lookup_lt_is_Some. apply lookup_lt_is_Some in Hi.
  destruct e as [flusher remoteAddr|j sel|message]; cbn [world_step] in Hstep.
  - destruct (getEvents_open flusher remoteAddr (hub w)) as [[[resp|ses] h']|]; [| |done];
      cbn [rbind fst snd] in Hstep; injection Hstep as <-; cbn [sessions]; [done|].
    rewrite length_app. lia.
  - destruct (sessions w !! j) as [sj|]; [|by injection Hstep as <-].
    destruct (getEvents_turn sel sj (hub w)) as [[ses' h']|]; [|done].
    cbn [rbind fst snd] in Hstep. injection Hstep as <-. cbn [sessions].
    by rewrite length_insert.
  - destruct (on_broadcast message (hub w)) as [h'|]; [|done].
    cbn [rbind] in Hstep. by injection Hstep as <-.
Qed.

Lemma stream_run events : forall w w' i,
  World_ok w ->
  is_Some (sessions w !! i) ->
  world_run events w = Ok w' ->
  healthy w' i ->
  healthy w i /\ stream_of w' i = stream_of w i ++ published events.
Proof.
  induction events as [|e events IH]; intros w w' i Hw Hi Hrun Hh; simpl in Hrun.
  - injection Hrun as <-. by rewrite app_nil_r.
  - destruct (world_step_ok e w Hw) as (w1 & Hstep & Hw1).
    rewrite Hstep in Hrun. simpl in Hrun.
    pose proof (sessions_kept e w w1 i Hw Hi Hstep) as Hi1.
    destruct (IH w1 w' i Hw1 Hi1 Hrun Hh) as [Hh1 Hs1].
    destruct (stream_step e w w1 i Hw Hi Hstep Hh1) as [Hh0 Hs0].
    split; [done|]. by rewrite Hs1, Hs0, (published_cons e events), app_assoc.
Qed.

(** X9.  The hub and the streaming handlers never panic.  Start from the
    fresh hub and let connections open (with or without a flusher),
    handlers take turns (any [select] case, writes succeeding or
    failing, the deferred unregister) and broadcasts be served, in any
    order and any number: every step completes, so no channel is closed
    twice, nothing is sent on a closed channel, and every registered
    client keeps an open queue of at most 256 messages. *)
Theorem hub_and_endpoints_never_panic events :
  exists w, world_run events boot = Ok w /\ Hub_ok (hub w).
Proof.
  destruct (world_run_ok events boot World_ok_boot) as (w & Hrun & Hw).
  exists w. split; [done|]. by apply world_hub_ok.
Qed.

(** X10.  A handler that has finished holds nothing in the hub: whatever
    happened before, and whichever way its loop ended, once the deferred
    unregister has run its client is not in the client set and its queue
    is closed. *)
Theorem finished_connection_is_released events w i ses :
  world_run events boot = Ok w ->
  sessions w !! i = Some ses ->
  phase ses = Gone ->
  clients (hub w) !! session_client ses = None /\
  (closed ∘ Send) <$> objects (hub w) !! session_client ses = Some true.
Proof.
  intros Hrun Hi Hgone.
  destruct (world_run_ok events boot World_ok_boot) as (w' & Hrun' & Hw).
  assert (w' = w) as -> by congruence.
  pose proof (gone_released w Hw i ses Hi Hgone) as Hout. split; [done|].
  destruct (lookup_lt_is_Some_2 (objects (hub w)) _ (clients_exist w Hw i ses Hi))
    as [cl Hobj].
  rewrite Hobj. simpl. f_equal. by apply (released_closed w Hw (session_client ses)).
Qed.

Lemma finished_connection_is_released_witness :
  let events := [ Opens true "10.0.0.1:40000"; Publish "tick";
                  Turn 0 (SendReady false); Turn 0 ContextDone ] in
  exists w,
    world_run events boot = Ok w /\
    sessions w !! 0 = Some {| session_client := 0; phase := Gone; written := [] |} /\
    clients (hub w) !! 0 = None.
Proof.
  intros events.
  assert (Hses : exists w0, world_run events boot = Ok w0 /\
            sessions w0 !! 0 = Some {| session_client := 0; phase := Gone; written := [] |}).
  { eexists. split; [vm_compute; reflexivity|reflexivity]. }
  destruct Hses as (w & Hrun & Hses).
  exists w. split; [done|]. split; [done|].
  exact (proj1 (finished_connection_is_released events w 0 _ Hrun Hses eq_refl)).
Defined.

(** X11.  The client set holds live connections only, each once: every
    client in the set belongs to exactly one opened connection, and the
    handler of that connection has not finished. *)
Theorem members_have_live_handlers events w client :
  world_run events boot = Ok w ->
  is_Some (clients (hub w) !! client) ->
  exists i ses,
    sessions w !! i = Some ses /\ session_client ses = client /\
    phase ses <> Gone /\
    forall j sj, sessions w !! j = Some sj -> session_client sj = client -> j = i.
Proof.
  intros Hrun Hreg.
  destruct (world_run_ok events boot World_ok_boot) as (w' & Hrun' & Hw).
  assert (w' = w) as -> by congruence.
  destruct (members_live w Hw client Hreg) as (i & ses & Hi & Hc & Hlive).
  exists i, ses. split_and!; try done.
  intros j sj Hj Hcj. apply (clients_distinct w Hw j i sj ses Hj Hi). congruence.
Qed.

Lemma members_have_live_handlers_witness :
  let events := [ Opens true "10.0.0.1:40000"; Opens false "10.0.0.2:40000";
                  Opens true "10.0.0.3:40000"; Turn 0 ContextDone; Turn 0 ContextDone ] in
  exists w i ses,
    world_run events boot = Ok w /\ is_Some (clients (hub w) !! 1) /\
    sessions w !! i = Some ses /\ session_client ses = 1 /\ phase ses <> Gone.
Proof.
  intros events.
  assert (Hrun : exists w, world_run events boot = Ok w /\ clients (hub w) !! 1 = Some true).
  { eexists. split; [vm_compute; reflexivity|reflexivity]. }
  destruct Hrun as (w & Hrun & Hreg).
  destruct (members_have_live_handlers events w 1 Hrun (ltac:(by exists true)))
    as (i & ses & Hi & Hc & Hlive & _).
  by exists w, i, ses.
Defined.

(** X12.  No loss, no duplication, no reordering for a connection that
    keeps up.  Take a connection opened after any history; as long as it
    is still in its loop and its client still in the set, what its
    handler has written followed by what waits in its queue is exactly
    the list of messages published since it opened, in publication
    order; nothing published before it opened is among them. *)
Theorem healthy_connection_gets_every_message before remoteAddr after w1 w' :
  world_run before boot = Ok w1 ->
  world_run (Opens true remoteAddr :: after) w1 = Ok w' ->
  healthy w' (length (sessions w1)) ->
  stream_of w' (length (sessions w1)) = published after.
Proof.
  intros Hbefore Hrun Hh.
  destruct (world_run_ok before boot World_ok_boot) as (w0 & Hrun0 & Hw1).
  assert (w0 = w1) as -> by congruence.
  cbn [world_run] in Hrun.
  destruct (world_step_ok (Opens true remoteAddr) w1 Hw1) as (w2 & Hstep & Hw2).
  rewrite Hstep in Hrun. cbn [rbind] in Hrun.
  cbn [world_step] in Hstep.
  destruct (getEvents_open_registers remoteAddr (hub w1) (world_hub_ok w1 Hw1)) as [Hopen _].
  rewrite Hopen in Hstep. cbn [rbind fst snd] in Hstep. injection Hstep as <-.
  set (i := length (sessions w1)) in *.
  match type of Hrun with world_run after ?w = _ => set (w2 := w) in * end.
  assert (Hi : sessions w2 !! i
               = Some {| session_client := length (objects (hub w1));
                         phase := Streaming; written := [] |}).
  { unfold w2. cbn [sessions]. by apply list_lookup_middle. }
  destruct (stream_run after w2 w' i Hw2 (ltac:(by eexists)) Hrun Hh) as [_ ->].
  unfold stream_of. rewrite Hi. unfold w2. cbn [hub objects session_client written].
  by rewrite list_lookup_middle.
Qed.

Lemma healthy_connection_gets_every_message_witness :
  let before := [ Publish "early" ] in
  let after := [ Publish "M1"; Turn 0 (SendReady true); Publish "M2" ] in
  exists w1 w',
    world_run before boot = Ok w1 /\
    world_run (Opens true "10.0.0.1:40000" :: after) w1 = Ok w' /\
    healthy w' (length (sessions w1)) /\
    stream_of w' 0 = ["M1"; "M2"].
Proof.
  intros before after.
  assert (H1 : world_run before boot = Ok boot) by (by vm_compute).
  destruct (world_run_ok (before ++ Opens true "10.0.0.1:40000" :: after) boot World_ok_boot)
    as (w' & Hrun & _).
  assert (H2 : world_run (Opens true "10.0.0.1:40000" :: after) boot = Ok w').
  { rewrite <- Hrun. by vm_compute. }
  assert (Hh : healthy w' (length (sessions boot))).
  { assert (Hw : exists s, sessions w' !! 0 = Some s /\ phase s = Streaming /\
                           clients (hub w') !! session_client s = Some true).
    { vm_compute in H2. injection H2 as <-. eexists. split_and!; reflexivity. }
    destruct Hw as (s & ? & ? & ?). exists s. split_and!; [done|done|by eexists]. }
  exists boot, w'. split_and!; try done.
  exact (healthy_connection_gets_every_message before _ after boot w' H1 H2 Hh).
Defined.



(** * The simulator's altitude adjustment *)

Lemma int64_wrap_small z :
  (- 2 ^ 63 <= z < 2 ^ 63)%Z -> int64_wrap z = z.
Proof. intros Hz. unfold int64_wrap. rewrite Z.mod_small by lia. lia. Qed.

(** X15.  After the adjustment the altitude is between 100 and 55000
    feet, whatever it was before.  For a draw of [rand.Intn(10)] and an
    altitude from 150 to 54960 no clamp applies: the altitude changes by
    ten times the draw minus 50, that is by one of -50, -40, ..., +40
    feet, never by +50. *)
Theorem altitude_adjustment_bounds altitude draw :
  (0 <= draw < 10)%Z ->
  (100 <= adjust_altitude altitude draw <= 55000)%Z /\
  ((150 <= altitude <= 54960)%Z ->
   adjust_altitude altitude draw = (altitude + (draw - 5) * 10)%Z /\
   (altitude - 50 <= adjust_altitude altitude draw <= altitude + 40)%Z).
Proof.
  intros Hdraw. unfold adjust_altitude.
  rewrite (int64_wrap_small (draw - 5)) by lia.
  rewrite (int64_wrap_small ((draw - 5) * 10)) by lia.
  split.
  - destruct (Z.ltb_spec (int64_wrap (altitude + (draw - 5) * 10)) 100);
      destruct (Z.ltb_spec 55000 100); try lia.
    destruct (Z.ltb_spec 55000 (int64_wrap (altitude + (draw - 5) * 10))); lia.
  - intros Halt. rewrite int64_wrap_small by lia.
    destruct (Z.ltb_spec (altitude + (draw - 5) * 10) 100); [lia|].
    destruct (Z.ltb_spec 55000 (altitude + (draw - 5) * 10)); lia.
Qed.

Lemma altitude_adjustment_bounds_witness :
  (0 <= 9 < 10)%Z /\ (150 <= 35000 <= 54960)%Z /\
  adjust_altitude 35000 9 = 35040%Z /\ adjust_altitude 54990 9 = 55000%Z.
Proof.
  split; [lia|]. split; [lia|].
  destruct (altitude_adjustment_bounds 35000 9 ltac:(lia)) as [_ Hin].
  destruct (Hin ltac:(lia)) as [Heq _].
  split; [exact Heq|reflexivity].
Defined.

(** * The capacity of a queue *)

(** A registered client with room for [messages] gets them all,
    whatever happens to the other clients meanwhile. *)
Lemma fan_out_to_client messages : forall h client cl,
  Hub_ok h ->
  is_Some (clients h !! client) ->
  objects h !! client = Some cl ->
  length (buf (Send cl)) + length messages <= 256 ->
  exists h',
    fan_out messages h = Ok h' /\ Hub_ok h' /\
    clients h' !! client = clients h !! client /\
    objects h' !! client
    = Some {| ID := ID cl;
              Send := {| buf := buf (Send cl) ++ messages;
                         capacity := capacity (Send cl); closed := false |} |}.
Proof.
  induction messages as [|m messages IH]; intros h client cl Hok Hreg Hobj Hroom.
  - exists h. split_and!; try done.
    destruct (members_open h Hok client Hreg) as (cl' & Hobj' & Hopen).
    assert (cl' = cl) as -> by congruence.
    rewrite Hobj, app_nil_r. destruct cl as [id [q k c]]. simpl in *. by subst c.
  - destruct (on_broadcast_registered m h Hok) as (h1 & Hrun & Hok1 & _ & _ & Hin).
    specialize (Hin client cl Hreg Hobj).
    destruct (queues_bounded h Hok client cl Hobj) as [Hcap _].
    simpl in Hroom. rewrite decide_True in Hin by lia. destruct Hin as [Hc1 Ho1].
    destruct (IH h1 client (enqueued m cl) Hok1) as (h' & Hrest & Hok' & Hc' & Ho').
    + by rewrite Hc1.
    + done.
    + simpl. rewrite length_app. simpl. lia.
    + exists h'. rewrite fan_out_cons, Hrun. simpl. split_and!; try done; [congruence|].
      rewrite Ho'. simpl. by rewrite <- app_assoc.
Qed.

(** X8.  The queue holds 256 messages and the 257th costs the client
    its place.  A registered client with an empty queue that takes
    nothing out is still registered after 256 broadcasts, with all 256
    queued in order; the next broadcast removes it from the set and
    closes its queue, and that message is not queued.  None of this
    depends on what the other clients do. *)
Theorem silent_client_dropped_by_257th messages extra h client cl :
  Hub_ok h ->
  is_Some (clients h !! client) ->
  objects h !! client = Some cl ->
  buf (Send cl) = [] ->
  length messages = 256 ->
  exists h1 h2,
    fan_out messages h = Ok h1 /\
    clients h1 !! client = clients h !! client /\
    (buf ∘ Send) <$> objects h1 !! client = Some messages /\
    Hub_step (Broadcast extra) h1 = Ok h2 /\
    fan_out (messages ++ [extra]) h = Ok h2 /\
    clients h2 !! client = None /\
    objects h2 !! client
    = Some {| ID := ID cl;
              Send := {| buf := messages; capacity := 256; closed := true |} |}.
Proof.
  intros Hok Hreg Hobj Hempty Hlen.
  destruct (queues_bounded h Hok client cl Hobj) as [Hcap _].
  destruct (fan_out_to_client messages h client cl Hok Hreg Hobj)
    as (h1 & Hrun1 & Hok1 & Hc1 & Ho1); [rewrite Hempty; simpl; lia|].
  rewrite Hempty, Hcap in Ho1. simpl in Ho1.
  destruct (on_broadcast_registered extra h1 Hok1) as (h2 & Hrun2 & _ & _ & _ & Hin).
  specialize (Hin client _ (ltac:(by rewrite Hc1)) Ho1). simpl in Hin.
  rewrite decide_False in Hin by lia. destruct Hin as [Hc2 Ho2].
  exists h1, h2. split_and!; try done.
  - by rewrite Ho1.
  - unfold fan_out in *. rewrite fmap_app. simpl.
    clear -Hrun1 Hrun2. revert h Hrun1.
    induction messages as [|m ms IH]; intros h Hrun1; simpl in *.
    + injection Hrun1 as ->. by rewrite Hrun2.
    + destruct (on_broadcast m h) as [h'|]; [|done]. simpl in *. by apply IH.
Qed.

Lemma silent_client_dropped_by_257th_witness :
  let h := {| clients := {[ 1 := true ]}; objects := objects crowded_hub |} in
  exists h2,
    fan_out (replicate 256 "tick" ++ ["late"]) h = Ok h2 /\
    clients h2 !! 1 = None /\
    (length ∘ buf ∘ Send) <$> objects h2 !! 1 = Some 256.
Proof.
  intros h.
  assert (Hok : Hub_ok h).
  { split.
    - intros client [b Hb]. simpl in Hb.
      apply lookup_singleton_Some in Hb as [<- _]. eexists. split; reflexivity.
    - apply (queues_bounded crowded_hub Hub_ok_crowded_hub). }
  destruct (silent_client_dropped_by_257th (replicate 256 "tick") "late" h 1 _ Hok
              (ltac:(by exists true)) eq_refl eq_refl (length_replicate _ _))
    as (h1 & h2 & _ & _ & _ & _ & Hrun & Hout & Hobj).
  exists h2. split; [exact Hrun|]. split; [exact Hout|].
  rewrite Hobj. vm_compute. reflexivity.
Defined.

(** * A transport that cannot stream *)

(** X14.  When the response writer is not a flusher the handler of
    [GET /api/events] answers 500 with error = Streaming unsupported!
    before it creates a client: the hub is as it was, and the rest of
    any run goes exactly as if that connection had never been made. *)
Theorem unflushable_connection_never_joins remoteAddr earlier later w :
  getEvents_open false remoteAddr (hub w)
    = Ok (inl (JSON 500 (JMap {[ "error" := "Streaming unsupported!" ]})), hub w) /\
  world_run (earlier ++ Opens false remoteAddr :: later) w
    = world_run (earlier ++ later) w.
Proof.
  split; [reflexivity|]. revert w.
  induction earlier as [|e earlier IH]; intros w.
  - simpl. by destruct w.
  - simpl. destruct (world_step e w) as [w1|]; simpl; [apply IH|done].
Qed.

(** * From ingestion to the clients *)

Lemma fan_out_ok messages : forall h,
  Hub_ok h -> exists h', fan_out messages h = Ok h' /\ Hub_ok h'.
Proof.
  induction messages as [|m messages IH]; intros h Hok.
  - by exists h.
  - destruct (on_broadcast_registered m h Hok) as (h1 & Hrun & Hok1 & _).
    rewrite fan_out_cons, Hrun. simpl. by apply IH.
Qed.

(** X5.  When the hub serves the messages of an accepted
    [POST /api/aircraft], every registered client that has room for them
    stays registered and finds at the end of its queue the aircraft event
    (if it marshalled) followed by the events of the alerts that the same
    request appended to the log, in log order, whether or not other
    clients are dropped on the way. *)
Theorem ingestion_reaches_registered_clients rt body decoded s h :
  decodeAircraft rt body = Some decoded ->
  Hub_ok h ->
  let aircraft := Aircraft.with_Timestamp (now rt (clock s)) decoded in
  exists raised h',
    alerts_of (postAircraft rt body s).1.2 = alerts_of s ++ raised /\
    fan_out (postAircraft rt body s).2 h = Ok h' /\
    forall client cl,
      is_Some (clients h !! client) -> objects h !! client = Some cl ->
      length (buf (Send cl)) + length (postAircraft rt body s).2 <= 256 ->
      clients h' !! client = clients h !! client /\
      (buf ∘ Send) <$> objects h' !! client
      = Some (buf (Send cl) ++ aircraftUpdate_frames rt aircraft ++ alert_frames rt raised).
Proof.
  intros Hdec Hok aircraft.
  destruct (fan_out_ok (postAircraft rt body s).2 h Hok) as (h' & Hrun & _).
  destruct (postAircraft_accepted rt body decoded s Hdec) as (s' & Hpost & _ & Hlog & _).
  eexists _, h'. split; [rewrite Hpost; exact Hlog|]. split; [exact Hrun|].
  intros client cl Hreg Hobj Hroom.
  destruct (fan_out_to_client _ h client cl Hok Hreg Hobj Hroom) as (h2 & Hrun2 & _ & Hc & Ho).
  assert (h2 = h') as -> by congruence.
  split; [done|]. rewrite Ho, Hpost. done.
Qed.

Lemma ingestion_reaches_registered_clients_witness :
  let rt := test_runtime true in
  decodeAircraft rt "TARGET1" = Some (sample_aircraft "AABBCC" "TARGET1") /\
  Hub_ok crowded_hub /\
  exists h',
    fan_out (postAircraft rt "TARGET1" main_init).2 crowded_hub = Ok h' /\
    clients h' = {[ 1 := true ]} /\
    (length ∘ buf ∘ Send) <$> objects h' !! 1 = Some 3.
Proof.
  intros rt. split; [reflexivity|]. split; [exact Hub_ok_crowded_hub|].
  destruct (ingestion_reaches_registered_clients rt "TARGET1" _ main_init crowded_hub
              eq_refl Hub_ok_crowded_hub) as (raised & h' & _ & Hrun & _).
  exists h'. split; [exact Hrun|].
  assert (Hval : exists h0, fan_out (postAircraft rt "TARGET1" main_init).2 crowded_hub = Ok h0 /\
            clients h0 = {[ 1 := true ]} /\
            (length ∘ buf ∘ Send) <$> objects h0 !! 1 = Some 3).
  { clear. eexists. split; [vm_compute; reflexivity|]. split; vm_compute; reflexivity. }
  destruct Hval as (h0 & Hrun0 & Hval). by assert (h0 = h') as -> by congruence.
Defined.

(** * A copy handed out earlier and the log growing later *)

Section SnapshotFrame.
Context (rt : Runtime).

(** An append to the log leaves alone every slice that lives in another
    allocated block, and does not move the log into that block. *)
Lemma append_triggeredAlerts_frame alert t s :
  ptr t <> ptr (triggeredAlerts s) -> ptr t < next (mem s) ->
  let s' := (append_triggeredAlerts rt alert s).1.2 in
  view Alert.zero (mem s') t = view Alert.zero (mem s) t /\
  ptr t <> ptr (triggeredAlerts s') /\ ptr t < next (mem s').
Proof.
  intros Hne Hlt. unfold append_triggeredAlerts, append. cbn [fst snd].
  case_decide; cbn [fst snd mem triggeredAlerts ptr].
  - split_and!; [|done|done]. apply view_ext; [done|]. intros j _.
    apply load_store_other. congruence.
  - rewrite next_store_from. cbn [next]. split_and!; [|lia|lia].
    apply view_ext; [done|]. intros j _.
    rewrite load_store_from_other by lia. done.
Qed.

Lemma range_check_criterion_frame aircraft t criteria : forall s,
  ptr t <> ptr (triggeredAlerts s) -> ptr t < next (mem s) ->
  let s' := (range criteria (check_criterion rt aircraft) s).1.2 in
  view Alert.zero (mem s') t = view Alert.zero (mem s) t /\
  ptr t <> ptr (triggeredAlerts s') /\ ptr t < next (mem s').
Proof.
  induction criteria as [|c cs IH]; intros s Hne Hlt; [done|].
  cbn [range]. unfold bind.
  destruct (decide (Matches aircraft c)) as [Hm|Hm].
  - rewrite check_criterion_hit by done.
    set (alert := make_alert aircraft c (now rt (clock s))).
    destruct (append_triggeredAlerts_frame alert t (time_Now rt s).1.2 Hne Hlt)
      as (Hv1 & Hne1 & Hlt1).
    set (s1 := (append_triggeredAlerts rt alert (time_Now rt s).1.2).1.2) in *.
    destruct (IH s1 Hne1 Hlt1) as (Hv & Hne' & Hlt').
    destruct (range cs (check_criterion rt aircraft) s1) as [[u s'] out].
    cbn [fst snd] in *. split_and!; [|done|done]. by rewrite Hv, Hv1.
  - rewrite check_criterion_miss by done.
    destruct (IH s Hne Hlt) as (Hv & Hne' & Hlt').
    destruct (range cs (check_criterion rt aircraft) s) as [[u s'] out]. done.
Qed.

Lemma serve_frame r t s :
  ptr t <> ptr (triggeredAlerts s) -> ptr t < next (mem s) ->
  let s' := (serve rt r s).1.2 in
  view Alert.zero (mem s') t = view Alert.zero (mem s) t /\
  ptr t <> ptr (triggeredAlerts s') /\ ptr t < next (mem s').
Proof.
  intros Hne Hlt. destruct r as [body| |body]; cbn [serve].
  - unfold postAircraft. destruct (decodeAircraft rt body) as [decoded|]; [|done].
    set (aircraft := Aircraft.with_Timestamp (now rt (clock s)) decoded).
    destruct (range_check_criterion_frame aircraft t (alertCriteria s)
                (time_Now rt s).1.2 Hne Hlt) as (Hv & Hne' & Hlt').
    unfold bind, time_Now, read_alertCriteria in *. cbn [fst snd] in *.
    fold aircraft.
    destruct (marshalAircraft rt aircraft); cbn [hub_broadcast ret fst snd];
      match goal with
      | |- context [range ?cs ?f ?x] =>
          remember (range cs f x) as res eqn:Hres in *; destruct res as [[u s'] out]
      end; cbn [alertCriteria] in Hres; rewrite <- Hres in *; cbn [fst snd] in *; done.
  - unfold getAlerts, bind, copy_triggeredAlerts, copy, make. cbn.
    rewrite !next_store_from. cbn [next]. split_and!; [|done|lia].
    apply view_ext; [done|]. intros j _.
    rewrite !load_store_from_other by lia. done.
  - unfold postAlertCriteria. by destruct (decodeCriteria rt body).
Qed.

Lemma serve_all_frame reqs t : forall s,
  ptr t <> ptr (triggeredAlerts s) -> ptr t < next (mem s) ->
  view Alert.zero (mem (serve_all rt reqs s)) t = view Alert.zero (mem s) t.
Proof.
  induction reqs as [|r reqs IH]; intros s Hne Hlt; [done|].
  destruct (serve_frame r t s Hne Hlt) as (Hv & Hne' & Hlt').
  cbn [serve_all]. by rewrite IH.
Qed.

End SnapshotFrame.

(** X16.  What [GET /api/alerts] returned stays what it was.  After any
    history of requests the slice handed out holds the log as it was at
    that moment, and keeps holding exactly that whatever requests are
    served afterwards: later appends to the log, and later copies, never
    show through it. *)
Theorem returned_alerts_are_a_snapshot rt reqs more :
  let s := serve_all rt reqs main_init in
  let sl := alerts_payload (getAlerts s).1.1 in
  let s1 := (getAlerts s).1.2 in
  view Alert.zero (mem s1) sl = alerts_of s /\
  view Alert.zero (mem (serve_all rt more s1)) sl = alerts_of s /\
  alerts_of s `prefix_of` alerts_of (serve_all rt more s1).
Proof.
  intros s sl s1.
  destruct (serve_all_log rt reqs main_init log_allocated_main_init) as [Hwf _].
  fold s in Hwf.
  destruct (getAlerts_copy s Hwf)
    as (sl' & s1' & Hget & Hview & Hlog & Hsame & _ & Hptr & Hnext).
  assert (sl = sl') as -> by (unfold sl; by rewrite Hget).
  assert (s1 = s1') as -> by (unfold s1; by rewrite Hget).
  assert (Hwf1 : log_allocated s1').
  { unfold log_allocated in *. rewrite Hsame, Hnext. lia. }
  split; [done|]. split.
  - rewrite serve_all_frame; [done| |].
    + rewrite Hsame, Hptr. unfold log_allocated in Hwf. lia.
    + rewrite Hptr, Hnext. lia.
  - rewrite <- Hlog. by apply serve_all_log.
Qed.
